(** * zad2/convexHull.cpp: the QuickHull program, embedded and checked

    The program keeps its points in a [vector<Point>] of doubles, reorders
    it in place and appends the chosen points to a second vector.  The
    embedding follows the source function by function:

    - [Point] holds two IEEE binary64 numbers (Rocq's primitive floats);
    - [int] indices are integers of [Z]; inside [quickHull] they range
      over [-1 .. size], so no index computation leaves the [int] range;
    - the two vectors and a ghost trace of the accesses to [points] form
      the [state] threaded through a small state-and-error monad [M];
      [operator[]] outside the vector is undefined behaviour ([Undefined]);
    - the recursion of [quickHull] is bounded by a depth counter, and
      running out of it is reported as [OutOfFuel]. *)

From Stdlib Require Import ZArith List Lia Bool Floats Permutation FinFun.
Import ListNotations.
Open Scope Z_scope.

(** ** Data *)

(** [struct Point { double x, y; }] *)
Record Point : Set := mkPoint { x : float; y : float }.

(** [double distance(Point a, Point b, Point p)], line 23.  [abs] is the
    [double] overload of [std::abs]; [dist > maxDist] further down is
    [maxDist < dist]. *)
Definition distance (a b p : Point) : float :=
  (abs ((x b - x a) * (y a - y p) - (x a - x p) * (y b - y a))
   / sqrt ((x b - x a) * (x b - x a) + (y b - y a) * (y b - y a)))%float.

(** Which function touched the vector: a ghost label of the trace. *)
Inductive routine : Set := InQuickHull | InFindMax.

(** Ghost events: [Access r i] is one evaluation of [points[i]] in
    routine [r]; [Search a b] is one call
    [findMaxDistancePoint(points, a, b)]. *)
Inductive event : Set :=
| Access (who : routine) (i : Z)
| Search (a b : Z).

(** The two vectors of the program and the trace, most recent event
    first. *)
Record state : Set := mkState {
  points : list Point;
  convexHull : list Point;
  trace : list event
}.

Inductive result (A : Type) : Type :=
| Ok (a : A) (s : state)
| Undefined
| OutOfFuel.
Arguments Ok {A} a s.
Arguments Undefined {A}.
Arguments OutOfFuel {A}.

Definition M (A : Type) : Type := state -> result A.

Definition ret {A} (a : A) : M A := fun s => Ok a s.

Definition bind {A B} (m : M A) (k : A -> M B) : M B :=
  fun s => match m s with
           | Ok a s' => k a s'
           | Undefined => Undefined
           | OutOfFuel => OutOfFuel
           end.

Declare Scope hull_scope.
Delimit Scope hull_scope with hull.
Notation "v <- m ;; k" := (bind m (fun v => k))
  (at level 61, m at next level, right associativity) : hull_scope.
Notation "m ;;; k" := (bind m (fun _ => k))
  (at level 61, right associativity) : hull_scope.
Open Scope hull_scope.

(** ** Vector primitives *)

Definition size (s : state) : Z := Z.of_nat (length (points s)).

Definition log (e : event) (s : state) : state :=
  mkState (points s) (convexHull s) (e :: trace s).

(** [points[i]] as an rvalue. *)
Definition at_ (who : routine) (i : Z) : M Point :=
  fun s =>
    if (0 <=? i) && (i <? size s) then
      match nth_error (points s) (Z.to_nat i) with
      | Some p => Ok p (log (Access who i) s)
      | None => Undefined
      end
    else Undefined.

Fixpoint set_nth (l : list Point) (n : nat) (p : Point) : list Point :=
  match l, n with
  | [], _ => []
  | _ :: t, O => p :: t
  | h :: t, S n' => h :: set_nth t n' p
  end.

(** [points[i] = p], for an index already checked by a read. *)
Definition store (i : Z) (p : Point) : M unit :=
  fun s => Ok tt (mkState (set_nth (points s) (Z.to_nat i) p)
                          (convexHull s) (trace s)).

(** [swap(points[i], points[j])] *)
Definition swap (who : routine) (i j : Z) : M unit :=
  pi <- at_ who i ;;
  pj <- at_ who j ;;
  store i pj ;;;
  store j pi.

(** [convexHull.push_back(p)] *)
Definition push_back (p : Point) : M unit :=
  fun s => Ok tt (mkState (points s) (convexHull s ++ [p]) (trace s)).

(** [points.size()] and [points.empty()] *)
Definition get_size : M Z := fun s => Ok (size s) s.
Definition empty : M bool := fun s => Ok (size s =? 0) s.

(** [for (int i = lo; i < hi; i++) acc = body(i, acc);] for a body that
    changes neither [i] nor [hi]. *)
Fixpoint for_count {A} (cnt : nat) (i : Z) (body : Z -> A -> M A) (acc : A)
  : M A :=
  match cnt with
  | O => ret acc
  | S cnt' => acc' <- body i acc ;; for_count cnt' (i + 1) body acc'
  end.

Definition for_ {A} (lo hi : Z) (body : Z -> A -> M A) (acc : A) : M A :=
  for_count (Z.to_nat (hi - lo)) lo body acc.

(** ** The functions of the program *)

(** [int findMaxDistancePoint(vector<Point>& points, int a, int b)],
    lines 35-48.  The accumulator is [(maxDist, maxPointIndex)]. *)
Definition findMaxDistancePoint (a b : Z) : M Z :=
  fun s0 =>
  (n <- get_size ;;
   r <- for_ 0 n
          (fun i '(maxDist, maxPointIndex) =>
             pa <- at_ InFindMax a ;;
             pb <- at_ InFindMax b ;;
             pi <- at_ InFindMax i ;;
             let dist := distance pa pb pi in
             if (maxDist <? dist)%float then ret (dist, i)
             else ret (maxDist, maxPointIndex))
          ((-1)%float, -1) ;;
   ret (snd r)) (log (Search a b) s0).

(** Lines 64-69: the index of the first point of lowest x. *)
Definition find_referential (left right : Z) : M Z :=
  for_ left (right + 1)
    (fun i referentialIndex =>
       pi <- at_ InQuickHull i ;;
       pr <- at_ InQuickHull referentialIndex ;;
       if (x pi <? x pr)%float then ret i else ret referentialIndex)
    left.

(** Lines 73-80: the partition loop. *)
Definition partition (left right : Z) : M Z :=
  for_ left right
    (fun i splitIndex =>
       pi <- at_ InQuickHull i ;;
       pr <- at_ InQuickHull right ;;
       if (x pi <? x pr)%float then
         swap InQuickHull i splitIndex ;;; ret (splitIndex + 1)
       else ret splitIndex)
    left.

(** [void quickHull(points, left, right, convexHull)], lines 58-94, with
    the farthest-point search as a parameter: [quickHull] below passes the
    program's own [findMaxDistancePoint]. *)
Fixpoint quickHull_with (search : Z -> Z -> M Z) (fuel : nat)
  (left right : Z) : M unit :=
  e <- empty ;;
  if e || (right <=? left) then ret tt
  else
    match fuel with
    | O => fun _ => OutOfFuel
    | S fuel' =>
        referentialIndex <- find_referential left right ;;
        swap InQuickHull referentialIndex right ;;;
        splitIndex <- partition left right ;;
        swap InQuickHull right splitIndex ;;;
        p <- at_ InQuickHull splitIndex ;;
        push_back p ;;;
        maxDistancePoint <- search left splitIndex ;;
        quickHull_with search fuel' left (splitIndex - 1) ;;;
        quickHull_with search fuel' (splitIndex + 1) right
    end.

Definition quickHull : nat -> Z -> Z -> M unit :=
  quickHull_with findMaxDistancePoint.

(** [int main()], lines 102-125.  What the [cin >>] statements leave in
    [n] and in [point] is the input of the model: [n] is the value of the
    variable after [cin >> n] and [cin k] is the value of [point] pushed
    in iteration [k]; how the text was parsed is not modelled.  [n - 1]
    is computed in 32-bit two's complement; where it wraps ([n] the least
    [int]) the buffer is empty and the call returns at line 59 whatever
    its [right] argument is.  The output is the sequence of things
    written to [cout]. *)
Inductive output : Set :=
| PromptCount
| PromptPoint (k : Z)
| Header
| Vertex (p : Point).

Inductive termination : Set :=
| Returns (stdout : list output) (status : Z)
| Crashes
| Starves.

Definition int_wrap (z : Z) : Z := (z + 2 ^ 31) mod 2 ^ 32 - 2 ^ 31.

(** The reading loop, lines 109-114: the prompts written and the vector
    built. *)
Fixpoint read_points (cnt : nat) (i : Z) (cin : Z -> Point)
  : list output * list Point :=
  match cnt with
  | O => ([], [])
  | S cnt' =>
      let (out, pts) := read_points cnt' (i + 1) cin in
      (PromptPoint (i + 1) :: out, cin i :: pts)
  end.

Definition main (fuel : nat) (n : Z) (cin : Z -> Point) : termination :=
  let (prompts, pts) := read_points (Z.to_nat n) 0 cin in
  match quickHull fuel 0 (int_wrap (n - 1)) (mkState pts [] []) with
  | Ok _ s =>
      Returns (PromptCount :: prompts ++ Header :: map Vertex (convexHull s)) 0
  | Undefined => Crashes
  | OutOfFuel => Starves
  end.

(** The hull a run on the whole buffer leaves, when it returns. *)
Definition hull_of (fuel : nat) (pts : list Point) : option (list Point) :=
  match quickHull fuel 0 (Z.of_nat (length pts) - 1) (mkState pts [] []) with
  | Ok _ s => Some (convexHull s)
  | _ => None
  end.

(** ** Vocabulary of the statements *)

Definition origin : Point := mkPoint 0 0.

(** The point at index [i] of a list, for an index inside it. *)
Definition get (l : list Point) (i : Z) : Point := nth (Z.to_nat i) l origin.

Definition inb (s : state) (i : Z) : Prop := 0 <= i < size s.

(** The list after [swap(points[i], points[j])]. *)
Definition exchange (l : list Point) (i j : Z) : list Point :=
  set_nth (set_nth l (Z.to_nat i) (get l j)) (Z.to_nat j) (get l i).

(** A double that is a zero of either sign or NaN. *)
Definition zero_or_nan (f : float) : Prop :=
  Prim2SF f = S754_nan \/ exists s, Prim2SF f = S754_zero s.

(** An access of [quickHull]'s own loops and swaps inside [left..right]. *)
Definition own (left right : Z) (e : event) : Prop :=
  match e with
  | Access InQuickHull i => left <= i <= right
  | _ => False
  end.

(** An access of the farthest-point search inside the vector. *)
Definition sought (n : Z) (e : event) : Prop :=
  match e with
  | Access InFindMax i => 0 <= i < n
  | _ => False
  end.

(** What a call of [quickHull] on [left..right] over [n] points does:
    its own accesses stay in the range, the search reads the vector, and
    every search is started on a segment from a point to itself. *)
Definition allowed (n left right : Z) (e : event) : Prop :=
  match e with
  | Access InQuickHull i => left <= i <= right
  | Access InFindMax i => 0 <= i < n
  | Search a b => a = b /\ left <= a <= right
  end.

(** The number of calls of [findMaxDistancePoint] in a trace. *)
Fixpoint searches (l : list event) : nat :=
  match l with
  | [] => O
  | Search _ _ :: t => S (searches t)
  | Access _ _ :: t => searches t
  end.

(** [s] is [s0] with more events, all satisfying [P], and the same two
    vectors. *)
Definition reads_only (P : event -> Prop) (s0 s : state) : Prop :=
  points s = points s0 /\ convexHull s = convexHull s0 /\
  exists l, trace s = l ++ trace s0 /\ Forall P l.

(** From [s] to [s']: the buffer keeps its length and holds points of
    [s] only, [kh] points of [s] were appended to the hull, and the new
    events are [allowed] ones with [ks] searches among them. *)
Record grows (n left right : Z) (kh ks : nat) (s s' : state) : Prop := {
  grows_length : length (points s') = length (points s);
  grows_points : incl (points s') (points s);
  grows_hull : exists h, convexHull s' = convexHull s ++ h /\
                         length h = kh /\ incl h (points s);
  grows_trace : exists l, trace s' = l ++ trace s /\
                          Forall (allowed n left right) l /\ searches l = ks
}.

(** A triangle: three distinct points, not on a line. *)
Definition triangle : list Point :=
  [mkPoint 0 0; mkPoint 1 0; mkPoint 0 1].

(** The unit square followed by its centre. *)
Definition square_with_centre : list Point :=
  [mkPoint 0 0; mkPoint 0 1; mkPoint 1 1; mkPoint 1 0; mkPoint 0.5 0.5].

(** The Euclidean distance from [p] to [a]: the fallback the
    specification proposes for a zero-length segment.  The program has
    no such function. *)
Definition euclid (p a : Point) : float :=
  sqrt ((x p - x a) * (x p - x a) + (y p - y a) * (y p - y a))%float.

(** An event that stays inside [left..right]. *)
Definition within (left right : Z) (e : event) : bool :=
  match e with
  | Access _ i => (left <=? i) && (i <=? right)
  | Search _ _ => true
  end.

(** ** Vocabulary of the further properties *)

(** [n] consecutive points of [l], from index [lo] on. *)
Definition slice (l : list Point) (lo : Z) (n : nat) : list Point :=
  firstn n (skipn (Z.to_nat lo) l).

(** From index [lo] to index [hi] of [l], no point has an x below that of
    a point before it. *)
Definition ascending_x (lo hi : Z) (l : list Point) : Prop :=
  forall i j, lo <= i -> i <= j -> j <= hi ->
    (x (get l j) <? x (get l i))%float = false.

(** What a call on [left .. right] leaves: the buffer permuted inside the
    range only, the range in ascending x, and the hull extended by the
    range without its last point. *)
Record sorted_run (left right : Z) (s s' : state) : Prop := {
  sr_perm : Permutation (points s) (points s');
  sr_frame : forall k, 0 <= k -> k < left \/ right < k ->
               get (points s') k = get (points s) k;
  sr_range : forall j, left <= j <= right ->
               exists j', left <= j' <= right /\
                          get (points s') j = get (points s) j';
  sr_ascending : ascending_x left right (points s');
  sr_hull : convexHull s' =
            convexHull s ++ slice (points s') left (Z.to_nat (right - left))
}.

(** The integers [lo], [lo+1], ..., [n] of them. *)
Fixpoint zrange (lo : Z) (n : nat) : list Z :=
  match n with
  | O => []
  | S n' => lo :: zrange (lo + 1) n'
  end.

(** NaN, or a value whose sign bit is clear. *)
Definition sign_clear (v : spec_float) : Prop :=
  match v with
  | S754_nan => True
  | S754_zero s | S754_infinity s | S754_finite s _ _ => s = false
  end.

Definition nonneg (f : float) : Prop := sign_clear (Prim2SF f).

(** The distance of point [i] of [l] from the line through points [a] and
    [b] of [l], as line 40 computes it. *)
Definition dist_at (l : list Point) (a b i : Z) : float :=
  distance (get l a) (get l b) (get l i).

(** What the search holds in [(maxDist, maxPointIndex)] after the indices
    below [k]: the sentinel, nothing being above -1, or the first index
    of a largest distance. *)
Definition farthest_below (l : list Point) (a b k : Z) (acc : float * Z)
  : Prop :=
  (acc = ((-1)%float, -1) /\
   forall j, 0 <= j < k -> ((-1) <? dist_at l a b j)%float = false) \/
  (0 <= snd acc < k /\ fst acc = dist_at l a b (snd acc) /\
   ((-1) <? fst acc)%float = true /\
   (forall j, 0 <= j < k -> (fst acc <? dist_at l a b j)%float = false) /\
   forall j, 0 <= j < snd acc ->
     (dist_at l a b j =? fst acc)%float = false).

(** ** zad1/PIDcontroller.c

    The second program of the repository, a PID controller stepped
    against a fixed plant model.  Doubles are binary64 floats as above,
    one rounding per operation.  [exp] of the C library is a parameter
    of the model; [printf] is modelled by the values it is given. *)

Module PID.

(** [typedef struct { double Kp, Ki, Kd, deltaT, setpoint, integral,
    prevError; } PIDController], lines 13-22. *)
Record PIDController : Set := mkPID {
  Kp : float;
  Ki : float;
  Kd : float;
  deltaT : float;
  setpoint : float;
  integral : float;
  prevError : float
}.

(** [void initPIDController(PIDController *controller, ...)], lines
    33-42: the structure it fills. *)
Definition initPIDController (Kp Ki Kd deltaT setpoint : float)
  : PIDController :=
  mkPID Kp Ki Kd deltaT setpoint 0 0.

(** The limiter written out twice, at lines 67-74 and 80-87:
    [if (v > 5.0) v = 5.0; else if (v < -5.0) v = -5.0;]. *)
Definition limit (v : float) : float :=
  if (5 <? v)%float then 5%float
  else if (v <? -5)%float then (-5)%float
  else v.

(** [double calculateProcessVariable(double time)], lines 100-103. *)
Definition calculateProcessVariable (exp : float -> float) (time : float)
  : float :=
  (1 - exp (- time / 10))%float.

(** [double updatePIDController(PIDController *controller, double
    processVariable, double time)], lines 51-93: the controller it leaves
    and the value it returns. *)
Definition updatePIDController (exp : float -> float)
  (controller : PIDController) (processVariable time : float)
  : PIDController * float :=
  let error := (setpoint controller - (1 - exp (- time / 10)))%float in
  let P := (Kp controller * error)%float in
  let integralIncrement :=
    ((error + prevError controller) * deltaT controller / 2)%float in
  let integral' :=
    (integral controller + Ki controller * integralIncrement)%float in
  let D :=
    (Kd controller * (error - prevError controller) / deltaT controller)%float
  in
  let integral'' := limit integral' in
  let controlOutput := (P + integral'' + D)%float in
  (mkPID (Kp controller) (Ki controller) (Kd controller) (deltaT controller)
         (setpoint controller) integral'' error,
   limit controlOutput).

(** What [printf] is given: the three values of line 135 and the count of
    line 142. *)
Inductive line : Set :=
| Result (time noPID withPID : float)
| Completed (iterations : Z).

(** The loop of lines 122-139, bounded by [fuel]: the lines printed and
    the final value of [iterations]. *)
Fixpoint simulate (exp : float -> float) (fuel : nat)
  (controller : PIDController) (time : float) (iterations : Z)
  : option (list line * Z) :=
  if (time <=? 100)%float then
    match fuel with
    | O => None
    | S fuel' =>
        let processVariable := calculateProcessVariable exp time in
        let (controller', controlOutput) :=
          updatePIDController exp controller processVariable time in
        let time' := (time + deltaT controller')%float in
        match simulate exp fuel' controller' time' (iterations + 1) with
        | Some (out, n) =>
            Some (Result time' processVariable
                    (processVariable + controlOutput) :: out, n)
        | None => None
        end
    end
  else Some ([], iterations).

(** [int main()], lines 109-145: the lines printed and the exit status.
    The gains 0.02 and the step 0.1 are written as the doubles the
    compiler rounds them to. *)
Definition main (exp : float -> float) (fuel : nat)
  : option (list line * Z) :=
  let controller :=
    initPIDController 1 0 0x1.47ae147ae147bp-6 0x1.999999999999ap-4 1 in
  match simulate exp fuel controller 0 0 with
  | Some (out, iterations) => Some (out ++ [Completed iterations], 0)
  | None => None
  end.

(** The clock of the loop alone: [time], [deltaT] and [iterations]. *)
Fixpoint ticks (fuel : nat) (dt time : float) (iterations : Z) : option Z :=
  if (time <=? 100)%float then
    match fuel with
    | O => None
    | S fuel' => ticks fuel' dt (time + dt) (iterations + 1)
    end
  else Some iterations.

End PID.

(** The calls [findMaxDistancePoint(points, a, b)] of a trace, as pairs
    [(a, b)], the earliest first. *)
Fixpoint search_calls (l : list event) : list (Z * Z) :=
  match l with
  | [] => []
  | Search a b :: t => search_calls t ++ [(a, b)]
  | Access _ _ :: t => search_calls t
  end.

(** ** Facts on the order of doubles *)

Section FloatOrder.

Lemma lex_lt e1 m1 e2 m2 :
  match e1 ?= e2 with
  | Lt => Lt | Gt => Gt | Eq => Pos.compare_cont Eq m1 m2
  end = Lt
  <-> e1 < e2 \/ (e1 = e2 /\ (m1 < m2)%positive).
Proof.
  change (Pos.compare_cont Eq m1 m2) with (Pos.compare m1 m2).
  destruct (Z.compare_spec e1 e2); destruct (Pos.compare_spec m1 m2);
    split; intros; try discriminate; try reflexivity; try lia.
Qed.

Lemma lex_gt e1 m1 e2 m2 :
  match e1 ?= e2 with
  | Lt => Gt | Gt => Lt | Eq => CompOpp (Pos.compare_cont Eq m1 m2)
  end = Lt
  <-> e2 < e1 \/ (e1 = e2 /\ (m2 < m1)%positive).
Proof.
  change (Pos.compare_cont Eq m1 m2) with (Pos.compare m1 m2).
  destruct (Z.compare_spec e1 e2); destruct (Pos.compare_spec m1 m2);
    split; simpl; intros; try discriminate; try reflexivity; try lia.
Qed.

Lemma SFltb_finite s1 m1 e1 s2 m2 e2 :
  SFltb (S754_finite s1 m1 e1) (S754_finite s2 m2 e2) = true <->
  match s1, s2 with
  | true, false => True
  | false, true => False
  | false, false => e1 < e2 \/ (e1 = e2 /\ (m1 < m2)%positive)
  | true, true => e2 < e1 \/ (e1 = e2 /\ (m2 < m1)%positive)
  end.
Proof.
  unfold SFltb, SFcompare.
  destruct s1, s2.
  - rewrite <- lex_gt.
    destruct (match e1 ?= e2 with
              | Lt => Gt | Gt => Lt
              | Eq => CompOpp (Pos.compare_cont Eq m1 m2) end);
      split; intros; try discriminate; reflexivity.
  - split; auto.
  - split; [discriminate | tauto].
  - rewrite <- lex_lt.
    destruct (match e1 ?= e2 with
              | Lt => Lt | Gt => Gt
              | Eq => Pos.compare_cont Eq m1 m2 end);
      split; intros; try discriminate; reflexivity.
Qed.

Lemma SFltb_irrefl a : SFltb a a = false.
Proof.
  unfold SFltb, SFcompare.
  destruct a as [s|s| |s m e]; try destruct s; try reflexivity;
    rewrite Z.compare_refl, Pos.compare_cont_refl; reflexivity.
Qed.

Lemma SFltb_trans a b c :
  SFltb a b = true -> SFltb b c = true -> SFltb a c = true.
Proof.
  destruct a as [sa|sa| |sa ma ea], b as [sb|sb| |sb mb eb],
           c as [sc|sc| |sc mc ec];
    try (rewrite !SFltb_finite; destruct sa, sb, sc; intros;
         try tauto; lia);
    unfold SFltb, SFcompare;
    try destruct sa; try destruct sb; try destruct sc;
    intros; try discriminate; try reflexivity.
Qed.

(** [<] on doubles is irreflexive and transitive, NaN included. *)
Lemma ltb_irrefl (a : float) : (a <? a)%float = false.
Proof. rewrite ltb_spec. apply SFltb_irrefl. Qed.

Lemma ltb_trans (a b c : float) :
  (a <? b)%float = true -> (b <? c)%float = true -> (a <? c)%float = true.
Proof. rewrite !ltb_spec. apply SFltb_trans. Qed.

(** If nothing seen so far is below [r] and [p] is, nothing seen so far
    is below [p] either. *)
Lemma ltb_lower (q p r : float) :
  (q <? r)%float = false -> (p <? r)%float = true ->
  (q <? p)%float = false.
Proof.
  intros Hqr Hpr. destruct (q <? p)%float eqn:Hqp; [|reflexivity].
  rewrite (ltb_trans _ _ _ Hqp Hpr) in Hqr. discriminate.
Qed.

End FloatOrder.

(** ** A zero-length segment: the value of [distance a a p] *)

Section Degenerate.

Lemma zn_intro f v :
  Prim2SF f = v -> v = S754_nan \/ (exists s, v = S754_zero s) ->
  zero_or_nan f.
Proof. intros <-. auto. Qed.

Ltac zn_cases H :=
  let s := fresh "s" in destruct H as [H | [s H]]; rewrite ?H.

Lemma zn_sub_diag f : zero_or_nan (f - f).
Proof.
  apply (zn_intro _ _ (sub_spec f f)). unfold SF64sub, SFsub.
  destruct (Prim2SF f) as [s|s| |s m e];
    [destruct s; eauto | destruct s; eauto | eauto | ].
  cbv zeta. rewrite Z.sub_diag. unfold binary_normalize. eauto.
Qed.

Lemma zn_mul_l f g : zero_or_nan f -> zero_or_nan (f * g).
Proof.
  intros H. apply (zn_intro _ _ (mul_spec f g)). unfold SF64mul, SFmul.
  zn_cases H; destruct (Prim2SF g); eauto.
Qed.

Lemma zn_mul_r f g : zero_or_nan g -> zero_or_nan (f * g).
Proof.
  intros H. apply (zn_intro _ _ (mul_spec f g)). unfold SF64mul, SFmul.
  zn_cases H; destruct (Prim2SF f); eauto.
Qed.

Lemma zn_sub f g : zero_or_nan f -> zero_or_nan g -> zero_or_nan (f - g).
Proof.
  intros Hf Hg. apply (zn_intro _ _ (sub_spec f g)).
  unfold SF64sub, SFsub.
  zn_cases Hf; zn_cases Hg; eauto.
  destruct s, s0; eauto.
Qed.

Lemma zn_add f g : zero_or_nan f -> zero_or_nan g -> zero_or_nan (f + g).
Proof.
  intros Hf Hg. apply (zn_intro _ _ (add_spec f g)).
  unfold SF64add, SFadd.
  zn_cases Hf; zn_cases Hg; eauto.
  destruct s, s0; eauto.
Qed.

Lemma zn_abs f : zero_or_nan f -> zero_or_nan (abs f).
Proof.
  intros H. apply (zn_intro _ _ (abs_spec f)). unfold SFabs.
  zn_cases H; eauto.
Qed.

Lemma zn_sqrt f : zero_or_nan f -> zero_or_nan (sqrt f).
Proof.
  intros H. apply (zn_intro _ _ (sqrt_spec f)). unfold SF64sqrt, SFsqrt.
  zn_cases H; eauto.
Qed.

Lemma zn_div f g :
  zero_or_nan f -> zero_or_nan g -> Prim2SF (f / g) = S754_nan.
Proof.
  intros Hf Hg. rewrite div_spec. unfold SF64div, SFdiv.
  zn_cases Hf; zn_cases Hg; reflexivity.
Qed.

Lemma is_nan_spec f : Prim2SF f = S754_nan -> is_nan f = true.
Proof. intros H. unfold is_nan. rewrite eqb_spec, H. reflexivity. Qed.

Lemma distance_degenerate a p : Prim2SF (distance a a p) = S754_nan.
Proof.
  unfold distance. apply zn_div.
  - apply zn_abs, zn_sub;
      [apply zn_mul_l | apply zn_mul_r]; apply zn_sub_diag.
  - apply zn_sqrt, zn_add; apply zn_mul_l, zn_sub_diag.
Qed.

(** No double is below NaN, and NaN is below none. *)
Lemma ltb_nan_r f g : Prim2SF g = S754_nan -> (f <? g)%float = false.
Proof.
  intros H. rewrite ltb_spec, H. unfold SFltb, SFcompare.
  destruct (Prim2SF f); reflexivity.
Qed.

End Degenerate.

(** ** Reasoning about the vector primitives *)

Section Primitives.

Lemma bind_Ok {A B} (m : M A) (k : A -> M B) s a s' :
  m s = Ok a s' -> bind m k s = k a s'.
Proof. intros H. unfold bind. now rewrite H. Qed.

Lemma length_set_nth l n p : length (set_nth l n p) = length l.
Proof.
  revert n; induction l as [|h t IH]; intros [|n]; simpl; auto.
Qed.

Lemma nth_set_nth l n k p d :
  nth k (set_nth l n p) d =
  if (Nat.eqb n k && Nat.ltb n (length l))%bool then p else nth k l d.
Proof.
  revert n k; induction l as [|h t IH]; intros [|n] [|k]; simpl; auto.
  change (S n <? 0)%nat with false.
  rewrite Bool.andb_false_r. reflexivity.
Qed.

Lemma In_set_nth l n p q : In q (set_nth l n p) -> q = p \/ In q l.
Proof.
  revert n; induction l as [|h t IH]; intros [|n]; simpl; auto.
  - intros [<- | H]; auto.
  - intros [<- | H]; auto. destruct (IH _ H); auto.
Qed.

Lemma get_In l i : 0 <= i < Z.of_nat (length l) -> In (get l i) l.
Proof. intros H. apply nth_In. lia. Qed.

Lemma length_exchange l i j : length (exchange l i j) = length l.
Proof. unfold exchange. now rewrite !length_set_nth. Qed.

Lemma incl_exchange l i j :
  0 <= i < Z.of_nat (length l) -> 0 <= j < Z.of_nat (length l) ->
  incl (exchange l i j) l.
Proof.
  intros Hi Hj q Hq. unfold exchange in Hq.
  apply In_set_nth in Hq as [-> | Hq]; [now apply get_In|].
  apply In_set_nth in Hq as [-> | Hq]; [now apply get_In|assumption].
Qed.

(** What an exchanged list holds at each index. *)
Lemma get_exchange l i j k :
  0 <= i < Z.of_nat (length l) -> 0 <= j < Z.of_nat (length l) ->
  0 <= k ->
  get (exchange l i j) k =
  if k =? j then get l i else if k =? i then get l j else get l k.
Proof.
  intros Hi Hj Hk. unfold exchange, get.
  rewrite !nth_set_nth, !length_set_nth.
  destruct (Z.eqb_spec k j) as [->|Hkj].
  - rewrite Nat.eqb_refl.
    replace (Nat.ltb (Z.to_nat j) (length l)) with true; [reflexivity|].
    symmetry; apply Nat.ltb_lt; lia.
  - replace (Nat.eqb (Z.to_nat j) (Z.to_nat k)) with false
      by (symmetry; apply Nat.eqb_neq; lia).
    simpl. destruct (Z.eqb_spec k i) as [->|Hki].
    + rewrite Nat.eqb_refl.
      replace (Nat.ltb (Z.to_nat i) (length l)) with true; [reflexivity|].
      symmetry; apply Nat.ltb_lt; lia.
    + replace (Nat.eqb (Z.to_nat i) (Z.to_nat k)) with false
        by (symmetry; apply Nat.eqb_neq; lia).
      reflexivity.
Qed.

Lemma at_ok who i s :
  inb s i -> at_ who i s = Ok (get (points s) i) (log (Access who i) s).
Proof.
  unfold inb, size, at_, get. intros H.
  replace ((0 <=? i) && (i <? size s))%bool with true
    by (symmetry; apply andb_true_iff; unfold size; split;
        [apply Z.leb_le | apply Z.ltb_lt]; lia).
  rewrite (nth_error_nth' (points s) origin (n := Z.to_nat i)) by lia.
  reflexivity.
Qed.

Lemma swap_ok who i j s :
  inb s i -> inb s j ->
  swap who i j s =
  Ok tt (mkState (exchange (points s) i j) (convexHull s)
                 (Access who j :: Access who i :: trace s)).
Proof.
  intros Hi Hj. unfold swap, bind. rewrite (at_ok who i s Hi).
  rewrite at_ok by exact Hj. reflexivity.
Qed.

End Primitives.

(** ** Counted loops *)

Section Loops.

Context {A : Type} (body : Z -> A -> M A) (I : Z -> A -> state -> Prop).

Lemma for_count_inv cnt : forall i acc s,
  (forall k a t, i <= k < i + Z.of_nat cnt -> I k a t ->
     exists a' t', body k a t = Ok a' t' /\ I (k + 1) a' t') ->
  I i acc s ->
  exists acc' s',
    for_count cnt i body acc s = Ok acc' s' /\
    I (i + Z.of_nat cnt) acc' s'.
Proof.
  induction cnt as [|cnt IH]; intros i acc s Hbody Hinit.
  - exists acc, s. simpl. rewrite Z.add_0_r. split; [reflexivity|assumption].
  - destruct (Hbody i acc s ltac:(lia) Hinit) as (a1 & s1 & Hrun & H1).
    destruct (IH (i + 1) a1 s1) as (a2 & s2 & Hrun2 & H2); [|assumption|].
    + intros k a t Hk. apply Hbody. lia.
    + exists a2, s2. split.
      * simpl. unfold bind. rewrite Hrun. exact Hrun2.
      * replace (i + Z.of_nat (S cnt)) with (i + 1 + Z.of_nat cnt) by lia.
        exact H2.
Qed.

Lemma for_inv lo hi acc s :
  lo <= hi ->
  (forall k a t, lo <= k < hi -> I k a t ->
     exists a' t', body k a t = Ok a' t' /\ I (k + 1) a' t') ->
  I lo acc s ->
  exists acc' s', for_ lo hi body acc s = Ok acc' s' /\ I hi acc' s'.
Proof.
  intros Hle Hbody Hinit. unfold for_.
  destruct (for_count_inv (Z.to_nat (hi - lo)) lo acc s) as (a & t & H1 & H2);
    [|assumption|].
  - intros k a t Hk. apply Hbody. lia.
  - exists a, t. split; [assumption|].
    replace (lo + Z.of_nat (Z.to_nat (hi - lo))) with hi in H2 by lia.
    exact H2.
Qed.

End Loops.

(** ** What each routine may touch *)

Section ReadOnly.

Variable P : event -> Prop.

Lemma reads_only_refl s : reads_only P s s.
Proof. repeat split. exists []. split; [reflexivity|constructor]. Qed.

Lemma reads_only_log s0 s e :
  reads_only P s0 s -> P e -> reads_only P s0 (log e s).
Proof.
  intros (Hp & Hh & l & Ht & Hl) He. repeat split; simpl; auto.
  exists (e :: l). rewrite Ht. split; [reflexivity|now constructor].
Qed.

Lemma reads_only_size s0 s : reads_only P s0 s -> size s = size s0.
Proof. intros (Hp & _). unfold size. now rewrite Hp. Qed.

Lemma at_reads who i s0 s :
  reads_only P s0 s -> inb s0 i -> P (Access who i) ->
  exists s', at_ who i s = Ok (get (points s0) i) s' /\ reads_only P s0 s'.
Proof.
  intros Hr Hi He. exists (log (Access who i) s). split.
  - rewrite at_ok.
    + destruct Hr as (-> & _). reflexivity.
    + unfold inb. rewrite (reads_only_size _ _ Hr). exact Hi.
  - now apply reads_only_log.
Qed.

End ReadOnly.

Lemma searches_app l1 l2 : searches (l1 ++ l2) = (searches l1 + searches l2)%nat.
Proof.
  induction l1 as [|[who i|a b] t IH]; simpl; auto.
Qed.

Lemma own_searches left right l : Forall (own left right) l -> searches l = O.
Proof.
  induction 1 as [|[who i|a b] t He _ IH]; simpl in *; auto. contradiction.
Qed.

Lemma sought_searches n l : Forall (sought n) l -> searches l = O.
Proof.
  induction 1 as [|[who i|a b] t He _ IH]; simpl in *; auto. contradiction.
Qed.

Lemma own_allowed n left right e : own left right e -> allowed n left right e.
Proof. destruct e as [[|] i|a b]; simpl; tauto. Qed.

Lemma sought_allowed n left right e : sought n e -> allowed n left right e.
Proof. destruct e as [[|] i|a b]; simpl; tauto. Qed.

Lemma allowed_widen n left left' right e :
  left <= left' -> allowed n left' right e -> allowed n left right e.
Proof. destruct e as [[|] i|a b]; simpl; lia. Qed.

(** ** The three loops *)

Section LoopSpecs.

Variables (left right : Z) (s : state).
Hypothesis Hleft : 0 <= left.
Hypothesis Hright : right < size s.

(** Lines 64-69 return an index of the range whose point no point of
    the range is below in x. *)
Lemma find_referential_ok :
  left <= right ->
  exists r s',
    find_referential left right s = Ok r s' /\
    reads_only (own left right) s s' /\
    left <= r <= right /\
    forall j, left <= j <= right ->
      (x (get (points s) j) <? x (get (points s) r))%float = false.
Proof.
  intros Hle. unfold find_referential.
  destruct (for_inv
    (fun i referentialIndex =>
       pi <- at_ InQuickHull i ;;
       pr <- at_ InQuickHull referentialIndex ;;
       if (x pi <? x pr)%float then ret i else ret referentialIndex)
    (fun k r t =>
       reads_only (own left right) s t /\ left <= r <= right /\
       forall j, left <= j < k ->
         (x (get (points s) j) <? x (get (points s) r))%float = false)
    left (right + 1) left s) as (r & s' & Hrun & Hro & Hr & Hmin).
  - lia.
  - intros k r t Hk (Hro & Hr & Hmin).
    destruct (at_reads _ InQuickHull k s t Hro) as (t1 & E1 & Hro1);
      [unfold inb; lia | simpl; lia |].
    destruct (at_reads _ InQuickHull r s t1 Hro1) as (t2 & E2 & Hro2);
      [unfold inb; lia | simpl; lia |].
    unfold bind. rewrite E1, E2.
    destruct (x (get (points s) k) <? x (get (points s) r))%float eqn:Elt.
    + exists k, t2. split; [reflexivity|]. split; [assumption|].
      split; [lia|]. intros j Hj. destruct (Z.eq_dec j k) as [->|Hne].
      * apply ltb_irrefl.
      * apply ltb_lower with (r := x (get (points s) r)); [|exact Elt].
        apply Hmin. lia.
    + exists r, t2. split; [reflexivity|]. split; [assumption|].
      split; [lia|]. intros j Hj. destruct (Z.eq_dec j k) as [->|Hne]; [exact Elt|].
      apply Hmin. lia.
  - split; [apply reads_only_refl|]. split; [lia|]. intros j Hj. lia.
  - exists r, s'. split; [assumption|]. split; [assumption|].
    split; [lia|]. intros j Hj. apply Hmin. lia.
Qed.

(** Lines 73-80 with nothing below the pivot: no swap, and
    [splitIndex] stays at [left]. *)
Lemma partition_ok :
  left <= right ->
  (forall j, left <= j < right ->
     (x (get (points s) j) <? x (get (points s) right))%float = false) ->
  exists s', partition left right s = Ok left s' /\
             reads_only (own left right) s s'.
Proof.
  intros Hle Hmin. unfold partition.
  destruct (for_inv
    (fun i splitIndex =>
       pi <- at_ InQuickHull i ;;
       pr <- at_ InQuickHull right ;;
       if (x pi <? x pr)%float then
         swap InQuickHull i splitIndex ;;; ret (splitIndex + 1)
       else ret splitIndex)
    (fun (k : Z) split t => reads_only (own left right) s t /\ split = left)
    left right left s) as (r & s' & Hrun & Hro & ->).
  - exact Hle.
  - intros k r t Hk (Hro & ->).
    destruct (at_reads _ InQuickHull k s t Hro) as (t1 & E1 & Hro1);
      [unfold inb; lia | simpl; lia |].
    destruct (at_reads _ InQuickHull right s t1 Hro1) as (t2 & E2 & Hro2);
      [unfold inb; lia | simpl; lia |].
    unfold bind at 1 2. rewrite E1, E2, (Hmin k Hk).
    exists left, t2. auto.
  - split; [apply reads_only_refl|reflexivity].
  - exists s'. auto.
Qed.

End LoopSpecs.

(** Lines 35-48: the search reads [points[a]], [points[b]] and every
    point of the vector, changes nothing, and on a segment from a point
    to itself finds every distance NaN and returns [-1]. *)
Lemma findMaxDistancePoint_ok a b s :
  inb s a -> inb s b ->
  exists v s',
    findMaxDistancePoint a b s = Ok v s' /\
    reads_only (sought (size s)) (log (Search a b) s) s' /\
    (a = b -> v = -1).
Proof.
  intros Ha Hb. unfold findMaxDistancePoint.
  set (s1 := log (Search a b) s).
  destruct (for_inv
    (fun i '(maxDist, maxPointIndex) =>
       pa <- at_ InFindMax a ;;
       pb <- at_ InFindMax b ;;
       pi <- at_ InFindMax i ;;
       let dist := distance pa pb pi in
       if (maxDist <? dist)%float then ret (dist, i)
       else ret (maxDist, maxPointIndex))
    (fun (k : Z) acc t =>
       reads_only (sought (size s)) s1 t /\
       (a = b -> acc = ((-1)%float, -1)))
    0 (size s1) ((-1)%float, -1) s1) as (r & s' & Hrun & Hro & Hres).
  - unfold size. lia.
  - intros k [maxDist maxPointIndex] t Hk (Hro & Hacc).
    destruct (at_reads _ InFindMax a s1 t Hro) as (t1 & E1 & Hro1);
      [exact Ha | exact Ha |].
    destruct (at_reads _ InFindMax b s1 t1 Hro1) as (t2 & E2 & Hro2);
      [exact Hb | exact Hb |].
    destruct (at_reads _ InFindMax k s1 t2 Hro2) as (t3 & E3 & Hro3);
      [exact Hk | exact Hk |].
    unfold bind. rewrite E1, E2, E3. cbv zeta.
    destruct (maxDist <? _)%float eqn:Elt.
    + eexists _, t3. split; [reflexivity|]. split; [assumption|].
      intros ->. rewrite ltb_nan_r in Elt by apply distance_degenerate.
      discriminate.
    + eexists _, t3. split; [reflexivity|]. split; assumption.
  - split; [apply reads_only_refl|reflexivity].
  - exists (snd r), s'. split.
    + rewrite (bind_Ok get_size _ s1 (size s1) s1 eq_refl).
      rewrite (bind_Ok _ _ _ _ _ Hrun). reflexivity.
    + split; [assumption|]. intros E. now rewrite (Hres E).
Qed.

(** The search reads every index of the vector, whatever [a] and [b]. *)
Lemma findMaxDistancePoint_reads_all a b s :
  inb s a -> inb s b ->
  exists v s' l,
    findMaxDistancePoint a b s = Ok v s' /\
    trace s' = l ++ trace s /\
    forall i, 0 <= i < size s -> In (Access InFindMax i) l.
Proof.
  intros Ha Hb. unfold findMaxDistancePoint.
  set (s1 := log (Search a b) s).
  destruct (for_inv
    (fun i '(maxDist, maxPointIndex) =>
       pa <- at_ InFindMax a ;;
       pb <- at_ InFindMax b ;;
       pi <- at_ InFindMax i ;;
       let dist := distance pa pb pi in
       if (maxDist <? dist)%float then ret (dist, i)
       else ret (maxDist, maxPointIndex))
    (fun (k : Z) (acc : float * Z) t =>
       size t = size s /\
       exists l, trace t = l ++ trace s /\
                 forall j, 0 <= j < k -> In (Access InFindMax j) l)
    0 (size s1) ((-1)%float, -1) s1) as (r & s' & Hrun & _ & l & Ht & Hl).
  - unfold size. lia.
  - intros k [maxDist maxPointIndex] t Hk (Hsz & l & Ht & Hl).
    change (size s1) with (size s) in Hk.
    assert (Hta : inb t a) by (unfold inb; rewrite Hsz; exact Ha).
    assert (Htb : inb t b) by (unfold inb; rewrite Hsz; exact Hb).
    assert (Htk : inb t k) by (unfold inb; rewrite Hsz; exact Hk).
    rewrite (bind_Ok _ _ _ _ _ (at_ok InFindMax a t Hta)).
    rewrite (bind_Ok _ _ _ _ _
               (at_ok InFindMax b (log (Access InFindMax a) t) Htb)).
    rewrite (bind_Ok _ _ _ _ _
               (at_ok InFindMax k
                  (log (Access InFindMax b) (log (Access InFindMax a) t))
                  Htk)).
    cbv zeta.
    assert (Hnew : size (log (Access InFindMax k)
                     (log (Access InFindMax b) (log (Access InFindMax a) t)))
                   = size s /\
                   exists l',
                     trace (log (Access InFindMax k)
                       (log (Access InFindMax b) (log (Access InFindMax a) t)))
                     = l' ++ trace s /\
                     forall j, 0 <= j < k + 1 -> In (Access InFindMax j) l').
    { split; [exact Hsz|].
      exists (Access InFindMax k :: Access InFindMax b
                :: Access InFindMax a :: l).
      simpl. rewrite Ht. split; [reflexivity|].
      intros j Hj. destruct (Z.eq_dec j k) as [->|Hne]; [now left|].
      right. right. right. apply Hl. lia. }
    destruct (maxDist <? _)%float; eexists _, _; (split; [reflexivity|]);
      exact Hnew.
  - split; [reflexivity|]. exists [Search a b]. split; [reflexivity|].
    intros j Hj. lia.
  - exists (snd r), s', l. split.
    + rewrite (bind_Ok get_size _ s1 (size s1) s1 eq_refl).
      rewrite (bind_Ok _ _ _ _ _ Hrun). reflexivity.
    + split; [exact Ht|]. intros i Hi. apply Hl. exact Hi.
Qed.

(** ** The effect of a call *)

Section Grows.

Variables n left right : Z.

Lemma grows_refl s : grows n left right 0 0 s s.
Proof.
  split; auto using incl_refl.
  - exists []. rewrite app_nil_r. repeat split. intros q [].
  - exists []. repeat split. constructor.
Qed.

Lemma grows_trans a b c d s0 s1 s2 :
  grows n left right a b s0 s1 -> grows n left right c d s1 s2 ->
  grows n left right (a + c) (b + d) s0 s2.
Proof.
  intros [L1 P1 (h1 & H1 & N1 & I1) (l1 & T1 & F1 & S1)]
         [L2 P2 (h2 & H2 & N2 & I2) (l2 & T2 & F2 & S2)].
  split.
  - congruence.
  - eauto using incl_tran.
  - exists (h1 ++ h2). rewrite H2, H1, <- app_assoc, length_app.
    repeat split; [lia|]. apply incl_app; eauto using incl_tran.
  - exists (l2 ++ l1). rewrite T2, T1, app_assoc, searches_app.
    repeat split; [|lia]. apply Forall_app; auto.
Qed.

Lemma grows_size a b s s' : grows n left right a b s s' -> size s' = size s.
Proof. intros [L _ _ _]. unfold size. now rewrite L. Qed.

Lemma own_grows s s' :
  reads_only (own left right) s s' -> grows n left right 0 0 s s'.
Proof.
  intros (Hp & Hh & l & Ht & Hl). split.
  - now rewrite Hp.
  - rewrite Hp. apply incl_refl.
  - exists []. rewrite app_nil_r. repeat split; auto. intros q [].
  - exists l. repeat split; auto.
    + eapply Forall_impl; [|exact Hl]. apply own_allowed.
    + eapply own_searches; eauto.
Qed.

Lemma search_grows a s s' :
  left <= a <= right ->
  reads_only (sought n) (log (Search a a) s) s' ->
  grows n left right 0 1 s s'.
Proof.
  intros Ha (Hp & Hh & l & Ht & Hl). simpl in *. split.
  - now rewrite Hp.
  - rewrite Hp. apply incl_refl.
  - exists []. rewrite app_nil_r. repeat split; auto. intros q [].
  - exists (l ++ [Search a a]). rewrite Ht, <- app_assoc. repeat split.
    + apply Forall_app. split.
      * eapply Forall_impl; [|exact Hl]. apply sought_allowed.
      * repeat constructor; simpl; lia.
    + rewrite searches_app, (sought_searches _ _ Hl). reflexivity.
Qed.

Lemma swap_grows i j s :
  inb s i -> inb s j -> left <= i <= right -> left <= j <= right ->
  grows n left right 0 0 s
    (mkState (exchange (points s) i j) (convexHull s)
             (Access InQuickHull j :: Access InQuickHull i :: trace s)).
Proof.
  intros Hi Hj Ri Rj. split; simpl.
  - apply length_exchange.
  - apply incl_exchange; assumption.
  - exists []. rewrite app_nil_r. repeat split. intros q [].
  - exists [Access InQuickHull j; Access InQuickHull i].
    repeat split. repeat constructor; simpl; lia.
Qed.

Lemma emit_grows i s :
  inb s i -> left <= i <= right ->
  grows n left right 1 0 s
    (mkState (points s) (convexHull s ++ [get (points s) i])
             (Access InQuickHull i :: trace s)).
Proof.
  intros Hi Ri. split; simpl; auto using incl_refl.
  - exists [get (points s) i]. repeat split.
    intros q [<- | []]. now apply get_In.
  - exists [Access InQuickHull i]. repeat split.
    repeat constructor; simpl; lia.
Qed.

End Grows.

Lemma grows_widen n left left' right a b s s' :
  left <= left' -> grows n left' right a b s s' -> grows n left right a b s s'.
Proof.
  intros Hle [L P H (l & T & F & S)]. split; auto.
  exists l. repeat split; auto.
  eapply Forall_impl; [|exact F]. intros e. now apply allowed_widen.
Qed.

(** Lines 64-80 on a range of two or more points inside the buffer: the
    pivot is a point of lowest x, so the partition finds nothing below
    it and the split index is [left]. *)
Lemma split_at_left left right s :
  0 <= left -> left < right -> right < size s ->
  exists r s1 s2 s3,
    find_referential left right s = Ok r s1 /\
    swap InQuickHull r right s1 = Ok tt s2 /\
    partition left right s2 = Ok left s3 /\
    left <= r <= right /\
    size s3 = size s /\
    grows (size s) left right 0 0 s s3.
Proof.
  intros Hl Hlt Hr.
  destruct (find_referential_ok left right s Hl Hr) as (r & s1 & E1 & Hro1 & Hrr & Hmin);
    [lia|].
  pose proof (reads_only_size _ _ _ Hro1) as Hsz1.
  assert (Hir : inb s1 r) by (unfold inb; lia).
  assert (Hiright : inb s1 right) by (unfold inb; lia).
  pose proof (swap_ok InQuickHull r right s1 Hir Hiright) as E2.
  set (s2 := mkState (exchange (points s1) r right) (convexHull s1)
                     (Access InQuickHull right :: Access InQuickHull r :: trace s1)) in *.
  assert (Hsz2 : size s2 = size s)
    by (unfold size in *; simpl; rewrite length_exchange; exact Hsz1).
  assert (Hp1 : points s1 = points s) by apply Hro1.
  destruct (partition_ok left right s2) as (s3 & E3 & Hro3); try lia.
  { intros j Hj. simpl. rewrite Hp1.
    unfold inb, size in Hir, Hiright. rewrite Hp1 in Hir, Hiright.
    rewrite !get_exchange by lia.
    rewrite Z.eqb_refl.
    replace (j =? right) with false by (symmetry; apply Z.eqb_neq; lia).
    destruct (j =? r); apply Hmin; lia. }
  exists r, s1, s2, s3.
  split; [exact E1|]. split; [exact E2|]. split; [exact E3|].
  split; [lia|]. split.
  - rewrite (reads_only_size _ _ _ Hro3). exact Hsz2.
  - change 0%nat with (0 + (0 + 0))%nat.
    eapply grows_trans; [apply own_grows; exact Hro1|].
    eapply grows_trans; [|apply own_grows; exact Hro3].
    apply swap_grows; assumption || lia.
Qed.

(** ** One call and the whole recursion *)

Lemma quickHull_with_S search fuel left right :
  quickHull_with search (S fuel) left right =
  (e <- empty ;;
   if e || (right <=? left) then ret tt
   else
     referentialIndex <- find_referential left right ;;
     swap InQuickHull referentialIndex right ;;;
     splitIndex <- partition left right ;;
     swap InQuickHull right splitIndex ;;;
     p <- at_ InQuickHull splitIndex ;;
     push_back p ;;;
     maxDistancePoint <- search left splitIndex ;;
     quickHull_with search fuel left (splitIndex - 1) ;;;
     quickHull_with search fuel (splitIndex + 1) right).
Proof. reflexivity. Qed.

(** The base case, line 59: no fuel is needed and nothing changes. *)
Lemma quickHull_with_base search fuel left right s :
  size s = 0 \/ right <= left ->
  quickHull_with search fuel left right s = Ok tt s.
Proof.
  intros H.
  assert (E : ((size s =? 0) || (right <=? left))%bool = true).
  { apply orb_true_iff. destruct H as [H|H];
      [left; apply Z.eqb_eq | right; apply Z.leb_le]; assumption. }
  destruct fuel; simpl; unfold bind, empty; rewrite E; reflexivity.
Qed.

(** A call on two or more points inside the buffer emits one point,
    searches once, and continues as the call on [left + 1 .. right]. *)
Lemma quickHull_step left right s :
  0 <= left -> left < right -> right < size s ->
  exists s',
    grows (size s) left right 1 1 s s' /\
    (forall fuel,
       quickHull (S fuel) left right s = quickHull fuel (left + 1) right s') /\
    exists l, trace s' = l ++ trace s /\
              forall i, 0 <= i < size s -> In (Access InFindMax i) l.
Proof.
  intros Hl Hlt Hr.
  destruct (split_at_left left right s Hl Hlt Hr)
    as (r & s1 & s2 & s3 & E1 & E2 & E3 & Hrr & Hsz3 & G3).
  assert (Hi3l : inb s3 left) by (unfold inb; lia).
  assert (Hi3r : inb s3 right) by (unfold inb; lia).
  pose proof (swap_ok InQuickHull right left s3 Hi3r Hi3l) as E4.
  pose proof (swap_grows (size s) left right right left s3 Hi3r Hi3l
                ltac:(lia) ltac:(lia)) as G4.
  set (s4 := mkState (exchange (points s3) right left) (convexHull s3)
               (Access InQuickHull left :: Access InQuickHull right :: trace s3))
    in *.
  assert (Hsz4 : size s4 = size s)
    by (rewrite <- Hsz3; unfold size; simpl; now rewrite length_exchange).
  assert (Hi4 : inb s4 left) by (unfold inb; lia).
  pose proof (at_ok InQuickHull left s4 Hi4) as E5.
  pose proof (emit_grows (size s) left right left s4 Hi4 ltac:(lia)) as G5.
  set (s5 := mkState (points s4) (convexHull s4 ++ [get (points s4) left])
               (Access InQuickHull left :: trace s4)) in *.
  assert (Hsz5 : size s5 = size s) by exact Hsz4.
  assert (Hi5 : inb s5 left) by exact Hi4.
  destruct (findMaxDistancePoint_ok left left s5 Hi5 Hi5)
    as (v & s6 & E6 & Hro6 & _).
  rewrite Hsz5 in Hro6.
  pose proof (search_grows (size s) left right left s5 s6 ltac:(lia) Hro6)
    as G6.
  exists s6. split; [|split].
  - refine (grows_trans _ _ _ 0 0 1 1 _ _ _ G3 _).
    refine (grows_trans _ _ _ 0 0 1 1 _ _ _ G4 _).
    exact (grows_trans _ _ _ 1 0 0 1 _ _ _ G5 G6).
  - intros fuel. unfold quickHull. rewrite quickHull_with_S.
    rewrite (bind_Ok empty _ s (size s =? 0) s eq_refl).
    replace (size s =? 0) with false by (symmetry; apply Z.eqb_neq; lia).
    replace (right <=? left) with false by (symmetry; apply Z.leb_gt; lia).
    cbv [orb].
    rewrite (bind_Ok _ _ _ _ _ E1), (bind_Ok _ _ _ _ _ E2).
    rewrite (bind_Ok _ _ _ _ _ E3), (bind_Ok _ _ _ _ _ E4).
    rewrite (bind_Ok _ _ _ _ _ E5).
    rewrite (bind_Ok (push_back _) _ (log (Access InQuickHull left) s4)
               tt s5 eq_refl).
    rewrite (bind_Ok _ _ _ _ _ E6).
    assert (Hb : size s6 = 0 \/ left - 1 <= left) by (right; lia).
    rewrite (bind_Ok _ _ _ tt s6
               (quickHull_with_base _ fuel left (left - 1) s6 Hb)).
    reflexivity.
  - destruct (findMaxDistancePoint_reads_all left left s5 Hi5 Hi5)
      as (v' & s6' & l6 & E6' & Ht6 & Hall).
    rewrite E6 in E6'. injection E6' as _ <-.
    destruct (grows_trans _ _ _ 0 0 1 0 _ _ _
                (grows_trans _ _ _ 0 0 0 0 _ _ _ G3 G4) G5)
      as [_ _ _ (l5 & Ht5 & _)].
    exists (l6 ++ l5). rewrite Ht6, Ht5, app_assoc. split; [reflexivity|].
    intros i Hi. apply in_or_app. left. apply Hall. rewrite Hsz5. exact Hi.
Qed.

(** A call inside the buffer returns once the fuel covers the depth
    [right - left] of its recursion; it emits that many points of the
    buffer and runs that many searches. *)
Lemma quickHull_ok fuel : forall left right s,
  0 <= left -> right < size s -> (Z.to_nat (right - left) <= fuel)%nat ->
  exists s',
    quickHull fuel left right s = Ok tt s' /\
    grows (size s) left right
          (Z.to_nat (right - left)) (Z.to_nat (right - left)) s s'.
Proof.
  induction fuel as [|fuel IH]; intros left right s Hl Hr Hf.
  - exists s. replace (Z.to_nat (right - left)) with O by lia. split.
    + apply quickHull_with_base. right. lia.
    + apply grows_refl.
  - destruct (Z_lt_le_dec left right) as [Hlt|Hge].
    + destruct (quickHull_step left right s Hl Hlt Hr)
        as (s1 & G1 & E1 & _).
      pose proof (grows_size _ _ _ _ _ _ _ G1) as Hsz.
      destruct (IH (left + 1) right s1) as (s2 & E2 & G2); try lia.
      exists s2. split; [now rewrite E1|].
      replace (Z.to_nat (right - left))
        with (1 + Z.to_nat (right - (left + 1)))%nat by lia.
      eapply grows_trans; [exact G1|].
      rewrite Hsz in G2. eapply grows_widen; [|exact G2]. lia.
    + exists s. replace (Z.to_nat (right - left)) with O by lia. split.
      * apply quickHull_with_base. right. lia.
      * apply grows_refl.
Qed.

(** Without fuel a call on two or more points cannot start. *)
Lemma quickHull_with_O search left right s :
  size s <> 0 -> left < right ->
  quickHull_with search 0 left right s = OutOfFuel.
Proof.
  intros Hs Hlt. simpl. unfold bind, empty.
  replace (size s =? 0) with false by (symmetry; apply Z.eqb_neq; lia).
  replace (right <=? left) with false by (symmetry; apply Z.leb_gt; lia).
  reflexivity.
Qed.

(** The state a call returns does not depend on the fuel it was given. *)
Lemma quickHull_fuel_irrelevant fuel1 : forall fuel2 left right s s1 s2,
  size s = 0 \/ (0 <= left /\ right < size s) ->
  quickHull fuel1 left right s = Ok tt s1 ->
  quickHull fuel2 left right s = Ok tt s2 ->
  s1 = s2.
Proof.
  induction fuel1 as [|fuel1 IH]; intros fuel2 left right s s1 s2 Hb E1 E2.
  - destruct (Z_lt_le_dec left right) as [Hlt|Hge];
      [destruct Hb as [Hz|[Hl Hr]]|].
    + unfold quickHull in *.
      rewrite quickHull_with_base in E1, E2 by auto. congruence.
    + unfold quickHull in E1. rewrite quickHull_with_O in E1 by lia.
      discriminate.
    + unfold quickHull in *.
      rewrite quickHull_with_base in E1, E2 by auto. congruence.
  - destruct (Z_lt_le_dec left right) as [Hlt|Hge];
      [destruct Hb as [Hz|[Hl Hr]]|].
    + unfold quickHull in *.
      rewrite quickHull_with_base in E1, E2 by auto. congruence.
    + destruct (quickHull_step left right s Hl Hlt Hr)
        as (s' & G & Hstep & _).
      destruct fuel2 as [|fuel2].
      * unfold quickHull in E2. rewrite quickHull_with_O in E2 by lia.
        discriminate.
      * rewrite Hstep in E1, E2.
        apply (IH fuel2 (left + 1) right s' s1 s2); auto.
        right. rewrite (grows_size _ _ _ _ _ _ _ G). lia.
    + unfold quickHull in *.
      rewrite quickHull_with_base in E1, E2 by auto. congruence.
Qed.

(** A call inside the buffer starves exactly when the fuel is below the
    depth of its recursion. *)
Lemma quickHull_starves fuel : forall left right s,
  0 <= left -> right < size s -> (fuel < Z.to_nat (right - left))%nat ->
  quickHull fuel left right s = OutOfFuel.
Proof.
  induction fuel as [|fuel IH]; intros left right s Hl Hr Hf.
  - apply quickHull_with_O; lia.
  - destruct (quickHull_step left right s Hl ltac:(lia) Hr)
      as (s' & G & -> & _).
    apply IH; try lia. rewrite (grows_size _ _ _ _ _ _ _ G). exact Hr.
Qed.

(** ** The search value is dead *)

Lemma bind_ext {A B} (m : M A) (k1 k2 : A -> M B) s :
  (forall a t, k1 a t = k2 a t) -> bind m k1 s = bind m k2 s.
Proof. intros H. unfold bind. destruct (m s); auto. Qed.

Lemma bind_bind {A B C} (m : M A) (f : A -> M B) (k : B -> M C) s :
  bind (bind m f) k s = bind m (fun a => bind (f a) k) s.
Proof. unfold bind. destruct (m s); reflexivity. Qed.

Lemma bind_ret {A B} (a : A) (k : A -> M B) s : bind (ret a) k s = k a s.
Proof. reflexivity. Qed.

(** Replacing what the search returns by any other value leaves every
    call of [quickHull] as it is: same buffer, same hull, same trace. *)
Lemma search_value_dead (g : Z -> Z -> Z -> Z) fuel : forall left right s,
  quickHull_with
    (fun a b => v <- findMaxDistancePoint a b ;; ret (g a b v))
    fuel left right s
  = quickHull fuel left right s.
Proof.
  unfold quickHull.
  induction fuel as [|fuel IH]; intros left right s; [reflexivity|].
  rewrite !quickHull_with_S.
  apply bind_ext. intros e s0.
  destruct (e || (right <=? left))%bool; [reflexivity|].
  apply bind_ext. intros r s1. apply bind_ext. intros [] s2.
  apply bind_ext. intros split s3. apply bind_ext. intros [] s4.
  apply bind_ext. intros p s5. apply bind_ext. intros [] s6.
  rewrite bind_bind. apply bind_ext. intros v s7. rewrite bind_ret.
  unfold bind. rewrite IH.
  destruct (quickHull_with findMaxDistancePoint fuel left (split - 1) s7);
    [apply IH | reflexivity | reflexivity].
Qed.

(** ** The driver *)

Lemma read_points_length cin cnt : forall i,
  length (snd (read_points cnt i cin)) = cnt.
Proof.
  induction cnt as [|cnt IH]; intros i; simpl; [reflexivity|].
  specialize (IH (i + 1)). destruct (read_points cnt (i + 1) cin).
  simpl in *. now rewrite IH.
Qed.

Lemma main_run fuel n cin :
  main fuel n cin =
  match quickHull fuel 0 (int_wrap (n - 1))
          (mkState (snd (read_points (Z.to_nat n) 0 cin)) [] []) with
  | Ok _ s =>
      Returns (PromptCount :: fst (read_points (Z.to_nat n) 0 cin)
                 ++ Header :: map Vertex (convexHull s)) 0
  | Undefined => Crashes
  | OutOfFuel => Starves
  end.
Proof. unfold main. destruct (read_points (Z.to_nat n) 0 cin). reflexivity. Qed.

Lemma int_wrap_le z : 0 <= z -> int_wrap z <= z.
Proof.
  intros Hz. unfold int_wrap.
  pose proof (Z.mod_le (z + 2 ^ 31) (2 ^ 32)). lia.
Qed.

(** The call of line 117 is on the empty buffer or inside the buffer. *)
Lemma main_range n cin :
  let s := mkState (snd (read_points (Z.to_nat n) 0 cin)) [] [] in
  size s = 0 \/ (0 <= 0 /\ int_wrap (n - 1) < size s).
Proof.
  unfold size. simpl. rewrite read_points_length.
  destruct (Z_le_gt_dec n 0) as [H|H]; [left; lia|right].
  pose proof (int_wrap_le (n - 1)). lia.
Qed.

(** Every run that has the fuel it needs ends in one and the same
    output; a run with less fuel starves. *)
Lemma main_outcome n cin :
  exists out,
    (forall fuel, (Z.to_nat n <= fuel)%nat ->
       main fuel n cin = Returns out 0) /\
    (forall fuel, main fuel n cin = Returns out 0 \/
                  main fuel n cin = Starves) /\
    (n <= 1 -> out = PromptCount :: fst (read_points (Z.to_nat n) 0 cin)
                       ++ [Header]).
Proof.
  set (s := mkState (snd (read_points (Z.to_nat n) 0 cin)) [] []).
  pose proof (main_range n cin) as Hrange. fold s in Hrange.
  assert (Hsz : size s = Z.of_nat (Z.to_nat n))
    by (unfold size, s; simpl; now rewrite read_points_length).
  destruct Hrange as [Hz | [_ Hr]].
  - exists (PromptCount :: fst (read_points (Z.to_nat n) 0 cin) ++ [Header]).
    assert (E : forall fuel, main fuel n cin =
              Returns (PromptCount :: fst (read_points (Z.to_nat n) 0 cin)
                         ++ [Header]) 0).
    { intros fuel. rewrite main_run. fold s. unfold quickHull.
      rewrite quickHull_with_base by auto. reflexivity. }
    repeat split; auto.
  - destruct (quickHull_ok (Z.to_nat (int_wrap (n - 1) - 0)) 0
                (int_wrap (n - 1)) s) as (s' & E & G); try lia.
    exists (PromptCount :: fst (read_points (Z.to_nat n) 0 cin)
              ++ Header :: map Vertex (convexHull s')).
    assert (Hall : forall fuel, main fuel n cin =
              Returns (PromptCount :: fst (read_points (Z.to_nat n) 0 cin)
                         ++ Header :: map Vertex (convexHull s')) 0 \/
              ((fuel < Z.to_nat (int_wrap (n - 1) - 0))%nat /\
               main fuel n cin = Starves)).
    { intros fuel. rewrite main_run. fold s.
      destruct (Nat.lt_ge_cases fuel (Z.to_nat (int_wrap (n - 1) - 0)))
        as [Hlt|Hge].
      - right. split; [assumption|].
        rewrite quickHull_starves by (try assumption; lia). reflexivity.
      - left. destruct (quickHull_ok fuel 0 (int_wrap (n - 1)) s)
          as (s'' & E' & _); try lia.
        rewrite E'.
        rewrite (quickHull_fuel_irrelevant _ _ _ _ _ _ _
                   (or_intror (conj (Z.le_refl 0) Hr)) E' E).
        reflexivity. }
    split; [|split].
    + intros fuel Hf. destruct (Hall fuel) as [H|[Hlt _]]; [exact H|].
      pose proof (int_wrap_le (n - 1)). lia.
    + intros fuel. destruct (Hall fuel) as [H|[_ H]]; auto.
    + intros Hn. destruct G as [_ _ (h & Hh & Hlen & _) _].
      simpl in Hh. rewrite Hh.
      destruct h; [reflexivity|]. simpl in Hlen. lia.
Qed.

(** On a segment from a point to itself the search finds nothing. *)
Lemma findMaxDistancePoint_degenerate a s :
  inb s a -> exists s', findMaxDistancePoint a a s = Ok (-1) s'.
Proof.
  intros Ha. destruct (findMaxDistancePoint_ok a a s Ha Ha)
    as (v & s' & E & _ & Hv).
  exists s'. now rewrite <- (Hv eq_refl).
Qed.

(** ** The searches of a run *)

Lemma search_calls_app l1 l2 :
  search_calls (l1 ++ l2) = search_calls l2 ++ search_calls l1.
Proof.
  induction l1 as [|[who i|a b] t IH]; simpl.
  - now rewrite app_nil_r.
  - exact IH.
  - now rewrite IH, app_assoc.
Qed.

Lemma own_search_calls left right l :
  Forall (own left right) l -> search_calls l = [].
Proof.
  induction 1 as [|[who i|a b] t He _ IH]; simpl in *; auto. contradiction.
Qed.

Lemma sought_search_calls n l : Forall (sought n) l -> search_calls l = [].
Proof.
  induction 1 as [|[who i|a b] t He _ IH]; simpl in *; auto. contradiction.
Qed.

Lemma search_calls_searches l : length (search_calls l) = searches l.
Proof.
  induction l as [|[who i|a b] t IH]; simpl; auto.
  rewrite length_app, IH. simpl. lia.
Qed.

(** The part of a call on two or more points that comes before its
    recursive calls, run step by step: pivot search, swap, partition,
    swap, emit, and one farthest-point search on [(left, left)]. *)
Lemma quickHull_prefix_run left right s :
  0 <= left -> left < right -> right < size s ->
  exists r t1 t2 t3 t4 p t5 v s1 l,
    find_referential left right s = Ok r t1 /\
    swap InQuickHull r right t1 = Ok tt t2 /\
    partition left right t2 = Ok left t3 /\
    swap InQuickHull right left t3 = Ok tt t4 /\
    at_ InQuickHull left t4 = Ok p (log (Access InQuickHull left) t4) /\
    push_back p (log (Access InQuickHull left) t4) = Ok tt t5 /\
    findMaxDistancePoint left left t5 = Ok v s1 /\
    search_calls (trace t5) = search_calls (trace s) /\
    trace s1 = l ++ trace s /\
    search_calls l = [(left, left)] /\
    convexHull s1 = convexHull s ++ [p] /\
    size s1 = size s /\
    forall search fuel,
      quickHull_with search (S fuel) left right s =
      (maxDistancePoint <- search left left ;;
       quickHull_with search fuel left (left - 1) ;;;
       quickHull_with search fuel (left + 1) right) t5.
Proof.
  intros Hl Hlt Hr.
  destruct (find_referential_ok left right s Hl Hr ltac:(lia))
    as (r & s1 & E1 & (Hp1 & Hh1 & l1 & Ht1 & Hl1) & Hrr & Hmin).
  assert (Hi1r : inb s1 r) by (unfold inb, size; rewrite Hp1; unfold size in Hr; lia).
  assert (Hi1right : inb s1 right)
    by (unfold inb, size; rewrite Hp1; unfold size in Hr; lia).
  pose proof (swap_ok InQuickHull r right s1 Hi1r Hi1right) as E2.
  set (s2 := mkState (exchange (points s1) r right) (convexHull s1)
               (Access InQuickHull right :: Access InQuickHull r :: trace s1))
    in *.
  assert (Hsz2 : size s2 = size s)
    by (unfold size; simpl; rewrite length_exchange, Hp1; reflexivity).
  destruct (partition_ok left right s2 Hl ltac:(lia) ltac:(lia))
    as (s3 & E3 & (Hp3 & Hh3 & l3 & Ht3 & Hl3)).
  { intros j Hj. simpl. rewrite Hp1.
    unfold size in Hr.
    rewrite !get_exchange by lia.
    rewrite Z.eqb_refl.
    replace (j =? right) with false by (symmetry; apply Z.eqb_neq; lia).
    destruct (j =? r); apply Hmin; lia. }
  assert (Hsz3 : size s3 = size s) by (unfold size; rewrite Hp3; exact Hsz2).
  assert (Hi3l : inb s3 left) by (unfold inb; lia).
  assert (Hi3r : inb s3 right) by (unfold inb; lia).
  pose proof (swap_ok InQuickHull right left s3 Hi3r Hi3l) as E4.
  set (s4 := mkState (exchange (points s3) right left) (convexHull s3)
               (Access InQuickHull left :: Access InQuickHull right :: trace s3))
    in *.
  assert (Hsz4 : size s4 = size s)
    by (rewrite <- Hsz3; unfold size; simpl; now rewrite length_exchange).
  assert (Hi4 : inb s4 left) by (unfold inb; lia).
  pose proof (at_ok InQuickHull left s4 Hi4) as E5.
  set (s5 := mkState (points s4) (convexHull s4 ++ [get (points s4) left])
               (Access InQuickHull left :: trace s4)) in *.
  assert (E5' : push_back (get (points s4) left)
                  (log (Access InQuickHull left) s4) = Ok tt s5)
    by reflexivity.
  assert (Hi5 : inb s5 left) by exact Hi4.
  destruct (findMaxDistancePoint_ok left left s5 Hi5 Hi5)
    as (v & s6 & E6 & (Hp6 & Hh6 & l6 & Ht6 & Hl6) & _).
  assert (Hc5 : search_calls (trace s5) = search_calls (trace s)).
  { simpl. rewrite Ht3. rewrite search_calls_app. simpl.
    rewrite (own_search_calls _ _ _ Hl3), app_nil_r.
    rewrite Ht1, search_calls_app, (own_search_calls _ _ _ Hl1).
    now rewrite app_nil_r. }
  exists r, s1, s2, s3, s4, (get (points s4) left), s5, v, s6.
  exists (l6 ++ Search left left :: Access InQuickHull left
            :: Access InQuickHull left :: Access InQuickHull right
            :: l3 ++ Access InQuickHull right :: Access InQuickHull r :: l1).
  repeat (split; [assumption|]).
  split; [|split; [|split; [|split]]].
  - rewrite Ht6. simpl. rewrite Ht3. simpl. rewrite Ht1.
    rewrite <- !app_assoc. simpl. rewrite <- !app_assoc. reflexivity.
  - rewrite search_calls_app. simpl. rewrite search_calls_app. simpl.
    rewrite (sought_search_calls _ _ Hl6), (own_search_calls _ _ _ Hl3),
      (own_search_calls _ _ _ Hl1). reflexivity.
  - rewrite Hh6. simpl. rewrite Hh3. simpl. rewrite Hh1. reflexivity.
  - unfold size. rewrite Hp6. exact Hsz4.
  - intros search fuel. rewrite quickHull_with_S.
    rewrite (bind_Ok empty _ s (size s =? 0) s eq_refl).
    replace (size s =? 0) with false by (symmetry; apply Z.eqb_neq; lia).
    replace (right <=? left) with false by (symmetry; apply Z.leb_gt; lia).
    cbv [orb].
    rewrite (bind_Ok _ _ _ _ _ E1), (bind_Ok _ _ _ _ _ E2).
    rewrite (bind_Ok _ _ _ _ _ E3), (bind_Ok _ _ _ _ _ E4).
    rewrite (bind_Ok _ _ _ _ _ E5).
    rewrite (bind_Ok (push_back _) _ (log (Access InQuickHull left) s4)
               tt s5 eq_refl).
    reflexivity.
Qed.

(** A call inside the buffer that has the fuel it needs returns, and the
    searches it and its recursive calls have run are, in order, one on
    [(k, k)] for each [k] from [left] to [right - 1]: one for each call
    on a range [k .. right] of two or more points. *)
Lemma quickHull_search_calls fuel : forall left right s,
  0 <= left -> right < size s -> (Z.to_nat (right - left) <= fuel)%nat ->
  exists s' l,
    quickHull fuel left right s = Ok tt s' /\
    trace s' = l ++ trace s /\
    search_calls l =
    map (fun k => (k, k)) (zrange left (Z.to_nat (right - left))).
Proof.
  induction fuel as [|fuel IH]; intros left right s Hl Hr Hf.
  - exists s, []. replace (Z.to_nat (right - left)) with O by lia.
    split; [apply quickHull_with_base; right; lia|]. split; reflexivity.
  - destruct (Z_lt_le_dec left right) as [Hlt|Hge].
    2:{ exists s, []. replace (Z.to_nat (right - left)) with O by lia.
        split; [apply quickHull_with_base; right; lia|]. split; reflexivity. }
    destruct (quickHull_prefix_run left right s Hl Hlt Hr)
      as (r & t1 & t2 & t3 & t4 & p & t5 & v & s1 & l1 & _ & _ & _ & _ & _
          & _ & E7 & _ & Ht1 & Hc1 & _ & Hsz1 & Hstep).
    destruct (IH (left + 1) right s1) as (s2 & l2 & E2 & Ht2 & Hc2);
      try lia.
    exists s2, (l2 ++ l1). split; [|split].
    + unfold quickHull. rewrite Hstep.
      rewrite (bind_Ok _ _ _ _ _ E7).
      assert (Hb : size s1 = 0 \/ left - 1 <= left) by (right; lia).
      rewrite (bind_Ok _ _ _ tt s1
                 (quickHull_with_base _ fuel left (left - 1) s1 Hb)).
      exact E2.
    + rewrite Ht2, Ht1, app_assoc. reflexivity.
    + rewrite search_calls_app, Hc1, Hc2.
      replace (Z.to_nat (right - left))
        with (S (Z.to_nat (right - (left + 1)))) by lia.
      reflexivity.
Qed.

(** * The properties of the specification *)

(** C1: a 3-point triangle should give its 3 points as the hull.  The
    code gives two: on the triangle (0,0), (1,0), (0,1) the hull is
    (0,0), (0,1), and on every 3-point input it has exactly two points,
    because the call on the last one-point range returns at line 59
    without emitting it. *)
Theorem triangle_hull_misses_a_vertex :
  hull_of 2 triangle = Some [mkPoint 0 0; mkPoint 0 1] /\
  forall a b c : Point,
    exists h, hull_of 2 [a; b; c] = Some h /\ length h = 2%nat.
Proof.
  split; [vm_compute; reflexivity|].
  intros a b c. unfold hull_of.
  destruct (quickHull_ok 2 0 2 (mkState [a; b; c] [] []))
    as (s' & E & [_ _ (h & Hh & Hlen & _) _]);
    [lia | unfold size; simpl; lia | simpl; lia |].
  change (Z.of_nat (length [a; b; c]) - 1) with 2. rewrite E.
  exists h. simpl in Hh. rewrite Hh. split; [reflexivity|exact Hlen].
Qed.

(** C2: on the unit square followed by its centre (0.5,0.5) the hull
    should leave the centre out.  The code emits it, as the third of
    four points. *)
Theorem centre_of_square_is_emitted :
  hull_of 4 square_with_centre =
  Some [mkPoint 0 0; mkPoint 0 1; mkPoint 0.5 0.5; mkPoint 1 0] /\
  exists h, hull_of 4 square_with_centre = Some h /\ In (mkPoint 0.5 0.5) h.
Proof.
  assert (E : hull_of 4 square_with_centre =
              Some [mkPoint 0 0; mkPoint 0 1; mkPoint 0.5 0.5; mkPoint 1 0])
    by (vm_compute; reflexivity).
  split; [exact E|]. eexists. split; [exact E|]. simpl. auto.
Qed.

(** C3: on a buffer of [n >= 1] points the call on [0 .. n-1] returns
    after appending exactly [n - 1] points to the hull.  In every call on
    two or more points inside the buffer the partition returns
    [splitIndex = left], one point is appended, the left recursion is on
    the empty range [left .. left-1] and the call continues as the call
    on [left+1 .. right]. *)
Theorem quickHull_emits_all_but_one (fuel : nat) (s : state) :
  1 <= size s -> (Z.to_nat (size s - 1) <= fuel)%nat ->
  (exists s' h,
     quickHull fuel 0 (size s - 1) s = Ok tt s' /\
     convexHull s' = convexHull s ++ h /\
     Z.of_nat (length h) = size s - 1) /\
  (forall left right t,
     0 <= left -> left < right -> right < size t ->
     exists r t1 t2 t3 t' p,
       find_referential left right t = Ok r t1 /\
       swap InQuickHull r right t1 = Ok tt t2 /\
       partition left right t2 = Ok left t3 /\
       convexHull t' = convexHull t ++ [p] /\
       forall fuel',
         quickHull fuel' left (left - 1) t' = Ok tt t' /\
         quickHull (S fuel') left right t
         = quickHull fuel' (left + 1) right t').
Proof.
  intros Hn Hf. split.
  - destruct (quickHull_ok fuel 0 (size s - 1) s)
      as (s' & E & [_ _ (h & Hh & Hlen & _) _]); [lia | lia | |].
    + replace (size s - 1 - 0) with (size s - 1) by lia. exact Hf.
    + exists s', h. split; [exact E|]. split; [exact Hh|]. lia.
  - intros left right t Hl Hlt Hr.
    destruct (split_at_left left right t Hl Hlt Hr)
      as (r & t1 & t2 & t3 & E1 & E2 & E3 & _).
    destruct (quickHull_step left right t Hl Hlt Hr)
      as (t' & [_ _ (h & Hh & Hlen & _) _] & Hstep & _).
    destruct h as [|p [|q h]]; try discriminate.
    exists r, t1, t2, t3, t', p. repeat (split; [assumption|]).
    intros fuel'. split; [|apply Hstep].
    apply quickHull_with_base. right. lia.
Qed.

Lemma quickHull_emits_all_but_one_witness :
  1 <= size (mkState triangle [] []) /\
  (Z.to_nat (size (mkState triangle [] []) - 1) <= 2)%nat /\
  exists s' h,
    quickHull 2 0 (size (mkState triangle [] []) - 1) (mkState triangle [] [])
    = Ok tt s' /\
    convexHull s' = [] ++ h /\
    Z.of_nat (length h) = size (mkState triangle [] []) - 1.
Proof.
  split; [vm_compute; discriminate|]. split; [vm_compute; lia|].
  apply (quickHull_emits_all_but_one 2 (mkState triangle [] []));
    [vm_compute; discriminate | vm_compute; lia].
Defined.

(** C4, as stated, fails: the call on the range [1 .. 2] of a 3-point
    buffer reads index 0, in the farthest-point search. *)
Lemma search_leaves_the_range :
  exists s',
    quickHull 1 1 2 (mkState triangle [] []) = Ok tt s' /\
    In (Access InFindMax 0) (trace s') /\
    forallb (within 1 2) (trace s') = false.
Proof.
  eexists. split; [vm_compute; reflexivity|]. split.
  - simpl. tauto.
  - vm_compute. reflexivity.
Qed.

(** C4, amended: a call on [left .. right] inside a buffer of [n]
    points returns, and of the accesses it and its recursive calls make,
    those of [quickHull]'s own loops and swaps are at indices in
    [left .. right], while those of the farthest-point search are at
    indices in [0 .. n-1]: on a range of two or more points the search
    reads every index of the buffer. *)
Theorem quickHull_accesses (fuel : nat) (left right : Z) (s : state) :
  0 <= left -> right < size s -> (Z.to_nat (right - left) <= fuel)%nat ->
  exists s' l,
    quickHull fuel left right s = Ok tt s' /\
    trace s' = l ++ trace s /\
    (forall who i, In (Access who i) l ->
       match who with
       | InQuickHull => left <= i <= right
       | InFindMax => 0 <= i < size s
       end) /\
    (left < right ->
     forall i, 0 <= i < size s -> In (Access InFindMax i) l).
Proof.
  intros Hl Hr Hf.
  destruct (quickHull_ok fuel left right s Hl Hr Hf)
    as (s' & E & [_ _ _ (l & Ht & Hall & _)]).
  exists s', l. split; [exact E|]. split; [exact Ht|]. split.
  - intros who i Hin. rewrite Forall_forall in Hall.
    specialize (Hall _ Hin). destruct who; exact Hall.
  - intros Hlt i Hi.
    destruct (quickHull_step left right s Hl Hlt Hr)
      as (s1 & G1 & Hstep & l1 & Ht1 & Hreads).
    destruct fuel as [|fuel]; [lia|].
    rewrite Hstep in E.
    destruct (quickHull_ok fuel (left + 1) right s1)
      as (s2 & E2 & [_ _ _ (l2 & Ht2 & _)]);
      [lia | rewrite (grows_size _ _ _ _ _ _ _ G1); exact Hr | lia |].
    rewrite E in E2. injection E2 as <-.
    rewrite Ht1, app_assoc in Ht2. rewrite Ht in Ht2.
    apply app_inv_tail in Ht2. subst l.
    apply in_or_app. right. apply Hreads. exact Hi.
Qed.

Lemma quickHull_accesses_witness :
  0 <= 1 /\ 2 < size (mkState triangle [] []) /\
  (Z.to_nat (2 - 1) <= 1)%nat /\
  exists s' l,
    quickHull 1 1 2 (mkState triangle [] []) = Ok tt s' /\
    trace s' = l ++ [] /\
    (forall who i, In (Access who i) l ->
       match who with
       | InQuickHull => 1 <= i <= 2
       | InFindMax => 0 <= i < 3
       end) /\
    (1 < 2 -> forall i, 0 <= i < 3 -> In (Access InFindMax i) l).
Proof.
  split; [lia|]. split; [vm_compute; reflexivity|]. split; [simpl; lia|].
  apply (quickHull_accesses 1 1 2 (mkState triangle [] []));
    [lia | vm_compute; reflexivity | simpl; lia].
Defined.

(** C5: on a buffer of at most one point the call on [0 .. n-1]
    returns at once, with an empty hull and the buffer as it was, and the
    program prints its prompts and the header only and exits with
    status 0. *)
Theorem tiny_input_empty_hull (fuel : nat) (pts : list Point) :
  (length pts <= 1)%nat ->
  quickHull fuel 0 (Z.of_nat (length pts) - 1) (mkState pts [] [])
  = Ok tt (mkState pts [] []) /\
  hull_of fuel pts = Some [] /\
  forall cin,
    main fuel (Z.of_nat (length pts)) cin =
    Returns (PromptCount :: fst (read_points (length pts) 0 cin) ++ [Header])
            0.
Proof.
  intros Hn.
  assert (E : quickHull fuel 0 (Z.of_nat (length pts) - 1) (mkState pts [] [])
              = Ok tt (mkState pts [] []))
    by (apply quickHull_with_base; right; lia).
  split; [exact E|]. split; [unfold hull_of; now rewrite E|].
  intros cin. rewrite main_run, Nat2Z.id. unfold quickHull.
  rewrite quickHull_with_base; [reflexivity|].
  destruct pts as [|p [|q pts]]; simpl in Hn; try lia.
  - left. reflexivity.
  - right. vm_compute. discriminate.
Qed.

Lemma tiny_input_empty_hull_witness :
  (length [mkPoint 2 3] <= 1)%nat /\
  hull_of 0 [mkPoint 2 3] = Some [] /\
  main 0 1 (fun _ => mkPoint 2 3)
  = Returns [PromptCount; PromptPoint 1; Header] 0.
Proof.
  split; [simpl; lia|].
  destruct (tiny_input_empty_hull 0 [mkPoint 2 3]) as (_ & H & Hmain);
    [simpl; lia|].
  split; [exact H|]. exact (Hmain (fun _ => mkPoint 2 3)).
Defined.

(** C6: a run on the whole buffer returns, and every point of the hull
    it returns is a point of the input buffer. *)
Theorem hull_points_come_from_input (fuel : nat) (pts : list Point) :
  (length pts - 1 <= fuel)%nat ->
  exists h, hull_of fuel pts = Some h /\ forall p, In p h -> In p pts.
Proof.
  intros Hf. unfold hull_of.
  destruct (quickHull_ok fuel 0 (Z.of_nat (length pts) - 1)
              (mkState pts [] []))
    as (s' & E & [_ _ (h & Hh & _ & Hincl) _]);
    [lia | unfold size; simpl; lia | lia |].
  rewrite E. exists h. simpl in Hh. rewrite Hh. split; [reflexivity|].
  exact Hincl.
Qed.

Lemma hull_points_come_from_input_witness :
  (length triangle - 1 <= 2)%nat /\
  exists h, hull_of 2 triangle = Some h /\ forall p, In p h -> In p triangle.
Proof.
  split; [simpl; lia|].
  apply (hull_points_come_from_input 2 triangle). simpl. lia.
Defined.

(** C7: a call on two or more points inside the buffer runs, before
    its recursive calls, the pivot search, the partition, the emit of one
    point and then the farthest-point search, once, on [(left, left)];
    a call that has its fuel returns, and the searches of the whole run
    are exactly one for each call on a range [k .. right] of two or more
    points, as many as points appended; and whatever value the search is
    made to return, the call returns the same result and state. *)
Theorem search_result_unused (left right : Z) (s : state) :
  0 <= left -> left < right -> right < size s ->
  (exists r t1 t2 t3 t4 p t5 v s1 l,
     find_referential left right s = Ok r t1 /\
     swap InQuickHull r right t1 = Ok tt t2 /\
     partition left right t2 = Ok left t3 /\
     swap InQuickHull right left t3 = Ok tt t4 /\
     at_ InQuickHull left t4 = Ok p (log (Access InQuickHull left) t4) /\
     push_back p (log (Access InQuickHull left) t4) = Ok tt t5 /\
     search_calls (trace t5) = search_calls (trace s) /\
     findMaxDistancePoint left left t5 = Ok v s1 /\
     trace s1 = l ++ trace s /\ searches l = 1%nat /\
     search_calls l = [(left, left)] /\
     convexHull s1 = convexHull s ++ [p] /\
     forall fuel,
       quickHull (S fuel) left right s
       = quickHull fuel (left + 1) right s1) /\
  (forall fuel, (Z.to_nat (right - left) <= fuel)%nat ->
     exists s' l h,
       quickHull fuel left right s = Ok tt s' /\
       trace s' = l ++ trace s /\
       search_calls l =
       map (fun k => (k, k)) (zrange left (Z.to_nat (right - left))) /\
       searches l = Z.to_nat (right - left) /\
       convexHull s' = convexHull s ++ h /\
       length h = Z.to_nat (right - left) /\
       forall g : Z -> Z -> Z -> Z,
         quickHull_with
           (fun a b => v <- findMaxDistancePoint a b ;; ret (g a b v))
           fuel left right s
         = Ok tt s') /\
  (forall (g : Z -> Z -> Z -> Z) fuel,
     quickHull_with
       (fun a b => v <- findMaxDistancePoint a b ;; ret (g a b v))
       fuel left right s
     = quickHull fuel left right s).
Proof.
  intros Hl Hlt Hr. split; [|split].
  - destruct (quickHull_prefix_run left right s Hl Hlt Hr)
      as (r & t1 & t2 & t3 & t4 & p & t5 & v & s1 & l & E1 & E2 & E3 & E4
          & E5 & E6 & E7 & Hc5 & Ht & Hc & Hh & Hsz & Hstep).
    exists r, t1, t2, t3, t4, p, t5, v, s1, l.
    repeat (split; [assumption|]).
    split; [rewrite <- search_calls_searches, Hc; reflexivity|].
    split; [exact Hc|]. split; [exact Hh|].
    intros fuel. unfold quickHull. rewrite Hstep.
    rewrite (bind_Ok _ _ _ _ _ E7).
    assert (Hb : size s1 = 0 \/ left - 1 <= left) by (right; lia).
    rewrite (bind_Ok _ _ _ tt s1
               (quickHull_with_base _ fuel left (left - 1) s1 Hb)).
    reflexivity.
  - intros fuel Hf.
    destruct (quickHull_search_calls fuel left right s Hl Hr Hf)
      as (s' & l & E & Ht & Hc).
    destruct (quickHull_ok fuel left right s Hl Hr Hf)
      as (s'' & E' & [_ _ (h & Hh & Hlen & _) _]).
    rewrite E in E'. injection E' as <-.
    exists s', l, h. repeat (split; [assumption|]).
    split.
    + rewrite <- search_calls_searches, Hc, length_map.
      clear. generalize (Z.to_nat (right - left)) as n. revert left.
      intros left n; revert left.
      induction n as [|n IHn]; intros left; simpl; auto.
    + split; [exact Hh|]. split; [exact Hlen|].
      intros g. rewrite search_value_dead. exact E.
  - intros g fuel. apply search_value_dead.
Qed.

Lemma search_result_unused_witness :
  0 <= 0 /\ 0 < 2 /\ 2 < size (mkState triangle [] []) /\
  (forall fuel, (Z.to_nat (2 - 0) <= fuel)%nat ->
     exists s' l h,
       quickHull fuel 0 2 (mkState triangle [] []) = Ok tt s' /\
       trace s' = l ++ [] /\
       search_calls l = map (fun k => (k, k)) (zrange 0 (Z.to_nat (2 - 0))) /\
       searches l = Z.to_nat (2 - 0) /\
       convexHull s' = [] ++ h /\
       length h = Z.to_nat (2 - 0) /\
       forall g : Z -> Z -> Z -> Z,
         quickHull_with
           (fun a b => v <- findMaxDistancePoint a b ;; ret (g a b v))
           fuel 0 2 (mkState triangle [] [])
         = Ok tt s') /\
  forall (g : Z -> Z -> Z -> Z) fuel,
    quickHull_with
      (fun a b => v <- findMaxDistancePoint a b ;; ret (g a b v))
      fuel 0 2 (mkState triangle [] [])
    = quickHull fuel 0 2 (mkState triangle [] []).
Proof.
  split; [lia|]. split; [lia|]. split; [vm_compute; reflexivity|].
  apply (search_result_unused 0 2 (mkState triangle [] []));
    [lia | lia | vm_compute; reflexivity].
Defined.

(** C8, as stated, fails: for a = b = (0,0) and p = (3,4) the distance
    is NaN, where the Euclidean distance from p to a is 5. *)
Lemma degenerate_distance_example :
  is_nan (distance origin origin (mkPoint 3 4)) = true /\
  euclid (mkPoint 3 4) origin = 5%float.
Proof. split; vm_compute; reflexivity. Qed.

(** C8, amended: called with a = b, [distance] returns NaN, for every
    [a] and [p]; it has no failure and no fallback. *)
Theorem distance_of_point_segment_is_nan (a p : Point) :
  is_nan (distance a a p) = true.
Proof. apply is_nan_spec, distance_degenerate. Qed.

(** C9, as stated, fails: with a negative count the program prints the
    header and exits with status 0. *)
Lemma negative_count_exits_zero :
  main 0 (-1) (fun _ => origin) = Returns [PromptCount; Header] 0.
Proof. vm_compute. reflexivity. Qed.

(** C9, amended: whatever count and coordinates were read, the program
    returns with exit status 0; with a negative count it prints the
    first prompt and the header and nothing else. *)
Theorem main_always_exits_zero (fuel : nat) (n : Z) (cin : Z -> Point) :
  (Z.to_nat n <= fuel)%nat ->
  exists out,
    main fuel n cin = Returns out 0 /\
    (n < 0 -> out = [PromptCount; Header]).
Proof.
  intros Hf. destruct (main_outcome n cin) as (out & Hout & _ & Hsmall).
  exists out. split; [apply Hout; exact Hf|].
  intros Hn. rewrite Hsmall by lia.
  replace (Z.to_nat n) with O by lia. reflexivity.
Qed.

Lemma main_always_exits_zero_witness :
  (Z.to_nat (-1) <= 0)%nat /\
  exists out,
    main 0 (-1) (fun _ => origin) = Returns out 0 /\
    (-1 < 0 -> out = [PromptCount; Header]).
Proof.
  split; [simpl; lia|].
  apply (main_always_exits_zero 0 (-1) (fun _ => origin)). simpl. lia.
Defined.

(** C10: two runs of the program on the same count and the same points
    both return, with the same lines printed and the same status, and no
    run on this input returns anything else. *)
Theorem main_deterministic
  (n : Z) (cin : Z -> Point) (fuel1 fuel2 : nat) :
  (Z.to_nat n <= fuel1)%nat -> (Z.to_nat n <= fuel2)%nat ->
  exists out,
    main fuel1 n cin = Returns out 0 /\
    main fuel2 n cin = Returns out 0 /\
    forall fuel out' st',
      main fuel n cin = Returns out' st' -> out' = out /\ st' = 0.
Proof.
  intros H1 H2. destruct (main_outcome n cin) as (out & Hout & Hall & _).
  exists out. split; [apply Hout; exact H1|]. split; [apply Hout; exact H2|].
  intros fuel out' st' E.
  destruct (Hall fuel) as [E'|E']; rewrite E' in E; [|discriminate].
  injection E as <- <-. auto.
Qed.

Lemma main_deterministic_witness :
  (Z.to_nat 3 <= 3)%nat /\ (Z.to_nat 3 <= 7)%nat /\
  exists out,
    main 3 3 (fun k => nth (Z.to_nat k) triangle origin) = Returns out 0 /\
    main 7 3 (fun k => nth (Z.to_nat k) triangle origin) = Returns out 0 /\
    forall fuel out' st',
      main fuel 3 (fun k => nth (Z.to_nat k) triangle origin)
      = Returns out' st' -> out' = out /\ st' = 0.
Proof.
  split; [simpl; lia|]. split; [simpl; lia|].
  apply (main_deterministic 3 (fun k => nth (Z.to_nat k) triangle origin) 3 7);
    simpl; lia.
Defined.

(** * Lemmas for the further properties *)

(** ** Permutation, order and frame *)

Lemma Permutation_exchange l i j :
  0 <= i < Z.of_nat (length l) -> 0 <= j < Z.of_nat (length l) ->
  Permutation l (exchange l i j).
Proof.
  intros Hi Hj. apply (Permutation_nth l (exchange l i j) origin).
  split; [apply length_exchange|].
  exists (fun k => if Nat.eqb k (Z.to_nat j) then Z.to_nat i
                   else if Nat.eqb k (Z.to_nat i) then Z.to_nat j else k).
  split; [|split].
  - intros k Hk.
    destruct (Nat.eqb_spec k (Z.to_nat j)); [lia|].
    destruct (Nat.eqb_spec k (Z.to_nat i)); lia.
  - intros a b Ha Hb.
    destruct (Nat.eqb_spec a (Z.to_nat j)), (Nat.eqb_spec a (Z.to_nat i)),
             (Nat.eqb_spec b (Z.to_nat j)), (Nat.eqb_spec b (Z.to_nat i));
      lia.
  - intros k Hk.
    pose proof (get_exchange l i j (Z.of_nat k) Hi Hj ltac:(lia)) as H.
    unfold get in H. rewrite Nat2Z.id in H. rewrite H.
    destruct (Z.eqb_spec (Z.of_nat k) j) as [E|E];
      destruct (Nat.eqb_spec k (Z.to_nat j)); try lia; [reflexivity|].
    destruct (Z.eqb_spec (Z.of_nat k) i) as [E'|E'];
      destruct (Nat.eqb_spec k (Z.to_nat i)); try lia; reflexivity.
Qed.

Lemma slice_cons l lo n :
  0 <= lo < Z.of_nat (length l) ->
  slice l lo (S n) = get l lo :: slice l (lo + 1) n.
Proof.
  intros H. unfold slice, get.
  replace (Z.to_nat (lo + 1)) with (S (Z.to_nat lo)) by lia.
  assert (Hlt : (Z.to_nat lo < length l)%nat) by lia.
  revert Hlt. generalize (Z.to_nat lo) as k. clear H.
  induction l as [|h t IH]; intros k Hk; simpl in Hk; [lia|].
  destruct k as [|k]; [reflexivity|].
  simpl skipn at 1. simpl nth. rewrite IH by lia. reflexivity.
Qed.

(** One call on two or more points, with the state it hands to the call
    on [left+1 .. right] spelled out. *)
Lemma quickHull_step_state left right s :
  0 <= left -> left < right -> right < size s ->
  exists r s',
    left <= r <= right /\
    (forall j, left <= j <= right ->
       (x (get (points s) j) <? x (get (points s) r))%float = false) /\
    points s' = exchange (exchange (points s) r right) right left /\
    convexHull s' = convexHull s ++ [get (points s) r] /\
    forall fuel,
      quickHull (S fuel) left right s = quickHull fuel (left + 1) right s'.
Proof.
  intros Hl Hlt Hr.
  destruct (find_referential_ok left right s Hl Hr ltac:(lia))
    as (r & s1 & E1 & (Hp1 & Hh1 & _) & Hrr & Hmin).
  assert (Hlen : 0 <= right < Z.of_nat (length (points s)))
    by (unfold size in Hr; lia).
  assert (Hi1r : inb s1 r) by (unfold inb, size; rewrite Hp1; lia).
  assert (Hi1right : inb s1 right) by (unfold inb, size; rewrite Hp1; lia).
  pose proof (swap_ok InQuickHull r right s1 Hi1r Hi1right) as E2.
  set (s2 := mkState (exchange (points s1) r right) (convexHull s1)
               (Access InQuickHull right :: Access InQuickHull r :: trace s1))
    in *.
  assert (Hsz2 : size s2 = size s)
    by (unfold size; simpl; rewrite length_exchange, Hp1; reflexivity).
  destruct (partition_ok left right s2 Hl ltac:(lia) ltac:(lia))
    as (s3 & E3 & (Hp3 & Hh3 & _)).
  { intros j Hj. simpl. rewrite Hp1. rewrite !get_exchange by lia.
    rewrite Z.eqb_refl.
    replace (j =? right) with false by (symmetry; apply Z.eqb_neq; lia).
    destruct (j =? r); apply Hmin; lia. }
  assert (Hsz3 : size s3 = size s) by (unfold size; rewrite Hp3; exact Hsz2).
  assert (Hi3l : inb s3 left) by (unfold inb; lia).
  assert (Hi3r : inb s3 right) by (unfold inb; lia).
  pose proof (swap_ok InQuickHull right left s3 Hi3r Hi3l) as E4.
  set (s4 := mkState (exchange (points s3) right left) (convexHull s3)
               (Access InQuickHull left :: Access InQuickHull right :: trace s3))
    in *.
  assert (Hsz4 : size s4 = size s)
    by (rewrite <- Hsz3; unfold size; simpl; now rewrite length_exchange).
  assert (Hi4 : inb s4 left) by (unfold inb; lia).
  pose proof (at_ok InQuickHull left s4 Hi4) as E5.
  set (s5 := mkState (points s4) (convexHull s4 ++ [get (points s4) left])
               (Access InQuickHull left :: trace s4)) in *.
  assert (Hi5 : inb s5 left) by exact Hi4.
  destruct (findMaxDistancePoint_ok left left s5 Hi5 Hi5)
    as (v & s6 & E6 & (Hp6 & Hh6 & _) & _).
  assert (Hpts : points s6 = exchange (exchange (points s) r right) right left).
  { rewrite Hp6. simpl. rewrite Hp3. simpl. rewrite Hp1. reflexivity. }
  exists r, s6. split; [exact Hrr|]. split; [exact Hmin|].
  split; [exact Hpts|]. split.
  - rewrite Hh6. simpl. rewrite Hh3. simpl. rewrite Hh1. f_equal. f_equal.
    rewrite Hp3. simpl. rewrite Hp1.
    assert (Hlen' : 0 <= right <
              Z.of_nat (length (exchange (points s) r right)))
      by (rewrite length_exchange; lia).
    rewrite get_exchange by (rewrite ?length_exchange; lia).
    rewrite Z.eqb_refl. rewrite get_exchange by lia.
    rewrite Z.eqb_refl. reflexivity.
  - intros fuel. unfold quickHull. rewrite quickHull_with_S.
    rewrite (bind_Ok empty _ s (size s =? 0) s eq_refl).
    replace (size s =? 0) with false by (symmetry; apply Z.eqb_neq; lia).
    replace (right <=? left) with false by (symmetry; apply Z.leb_gt; lia).
    cbv [orb].
    rewrite (bind_Ok _ _ _ _ _ E1), (bind_Ok _ _ _ _ _ E2).
    rewrite (bind_Ok _ _ _ _ _ E3), (bind_Ok _ _ _ _ _ E4).
    rewrite (bind_Ok _ _ _ _ _ E5).
    rewrite (bind_Ok (push_back _) _ (log (Access InQuickHull left) s4)
               tt s5 eq_refl).
    rewrite (bind_Ok _ _ _ _ _ E6).
    assert (Hb : size s6 = 0 \/ left - 1 <= left) by (right; lia).
    rewrite (bind_Ok _ _ _ tt s6
               (quickHull_with_base _ fuel left (left - 1) s6 Hb)).
    reflexivity.
Qed.

(** The two swaps of a call: the pivot lands on [left], nothing outside
    the range moves, and the range keeps its points. *)
Lemma pivot_swaps l left right r :
  0 <= left -> left <= r <= right -> right < Z.of_nat (length l) ->
  let l' := exchange (exchange l r right) right left in
  Permutation l l' /\
  get l' left = get l r /\
  (forall k, 0 <= k -> k < left \/ right < k -> get l' k = get l k) /\
  (forall j, left <= j <= right ->
     exists j', left <= j' <= right /\ get l' j = get l j').
Proof.
  intros Hl Hr Hright l'.
  assert (Hlen : length (exchange l r right) = length l)
    by apply length_exchange.
  assert (Hget : forall k, 0 <= k ->
            get l' k =
            if k =? left then get l r
            else if k =? right then (if left =? r then get l right
                                     else get l left)
            else if k =? r then get l right else get l k).
  { intros k Hk. unfold l'.
    rewrite get_exchange by (rewrite ?Hlen; lia).
    rewrite !get_exchange by lia. rewrite !Z.eqb_refl.
    destruct (Z.eqb_spec k left) as [->|]; [reflexivity|].
    destruct (Z.eqb_spec k right) as [->|].
    - destruct (Z.eqb_spec left right); [lia|].
      destruct (Z.eqb_spec left r); reflexivity.
    - reflexivity. }
  split; [|split; [|split]].
  - eapply perm_trans; [apply (Permutation_exchange l r right); lia|].
    apply Permutation_exchange; rewrite Hlen; lia.
  - rewrite Hget by lia. now rewrite Z.eqb_refl.
  - intros k Hpos Hk. rewrite Hget by lia.
    destruct (Z.eqb_spec k left); [lia|].
    destruct (Z.eqb_spec k right); [lia|].
    destruct (Z.eqb_spec k r); [lia|reflexivity].
  - intros j Hj. rewrite Hget by lia.
    destruct (Z.eqb_spec j left); [exists r; split; [lia|reflexivity]|].
    destruct (Z.eqb_spec j right).
    + destruct (Z.eqb_spec left r);
        [exists right | exists left]; split; try lia; reflexivity.
    + destruct (Z.eqb_spec j r);
        [exists right | exists j]; split; try lia; reflexivity.
Qed.

Lemma sorted_run_base left right s : right <= left -> sorted_run left right s s.
Proof.
  intros H. split.
  - apply Permutation_refl.
  - reflexivity.
  - intros j Hj. exists j. split; [exact Hj|reflexivity].
  - intros i j Hi Hij Hj. assert (i = j) as -> by lia. apply ltb_irrefl.
  - replace (Z.to_nat (right - left)) with O by lia.
    unfold slice. simpl. now rewrite app_nil_r.
Qed.

Lemma quickHull_sorts fuel : forall left right s,
  0 <= left -> right < size s -> (Z.to_nat (right - left) <= fuel)%nat ->
  exists s', quickHull fuel left right s = Ok tt s' /\
             sorted_run left right s s'.
Proof.
  induction fuel as [|fuel IH]; intros left right s Hl Hr Hf.
  - exists s. split; [apply quickHull_with_base; right; lia|].
    apply sorted_run_base. lia.
  - destruct (Z_lt_le_dec left right) as [Hlt|Hge].
    2:{ exists s. split; [apply quickHull_with_base; right; lia|].
        now apply sorted_run_base. }
    destruct (quickHull_step_state left right s Hl Hlt Hr)
      as (r & s1 & Hrr & Hmin & Hp1 & Hh1 & Hstep).
    destruct (pivot_swaps (points s) left right r Hl Hrr
                ltac:(unfold size in Hr; lia))
      as (Hperm1 & Hpiv & Hframe1 & Hrange1).
    rewrite <- Hp1 in Hperm1, Hpiv, Hframe1, Hrange1.
    assert (Hsz1 : size s1 = size s)
      by (unfold size; now rewrite <- (Permutation_length Hperm1)).
    destruct (IH (left + 1) right s1) as (s2 & E2 & [P2 F2 R2 A2 H2]);
      try lia.
    assert (Hleft2 : get (points s2) left = get (points s) r)
      by (rewrite F2 by lia; exact Hpiv).
    assert (Hrange : forall j, left <= j <= right ->
              exists j', left <= j' <= right /\
                         get (points s2) j = get (points s) j').
    { intros j Hj. destruct (Z.eq_dec j left) as [->|Hne].
      - exists r. split; [lia|exact Hleft2].
      - destruct (R2 j ltac:(lia)) as (j1 & Hj1 & E1).
        destruct (Hrange1 j1 ltac:(lia)) as (j2 & Hj2 & E1').
        exists j2. split; [exact Hj2|]. now rewrite E1. }
    exists s2. split; [rewrite Hstep; exact E2|]. split.
    + eapply perm_trans; eassumption.
    + intros k Hk0 Hk. rewrite F2 by lia. apply Hframe1; assumption.
    + exact Hrange.
    + intros i j Hi Hij Hj. destruct (Z.eq_dec i left) as [->|Hne].
      * rewrite Hleft2. destruct (Hrange j ltac:(lia)) as (j' & Hj' & ->).
        apply Hmin. exact Hj'.
      * apply A2; lia.
    + rewrite H2, Hh1, <- app_assoc. f_equal.
      replace (Z.to_nat (right - left))
        with (S (Z.to_nat (right - (left + 1)))) by lia.
      rewrite slice_cons.
      * simpl. now rewrite Hleft2.
      * rewrite <- (Permutation_length P2).
        unfold size in Hsz1, Hr. lia.
Qed.

Lemma read_points_spec cin cnt : forall i,
  read_points cnt i cin =
  (map PromptPoint (zrange (i + 1) cnt), map cin (zrange i cnt)).
Proof.
  induction cnt as [|cnt IH]; intros i; simpl; [reflexivity|].
  rewrite IH. reflexivity.
Qed.

Lemma int_wrap_small z : - 2 ^ 31 <= z < 2 ^ 31 -> int_wrap z = z.
Proof. intros H. unfold int_wrap. rewrite Z.mod_small; lia. Qed.

Lemma split_last (l : list Point) :
  l <> [] ->
  l = slice l 0 (length l - 1) ++ [get l (Z.of_nat (length l) - 1)].
Proof.
  intros Hne. unfold slice, get. simpl skipn.
  assert (Hlen : (0 < length l)%nat) by (destruct l; [congruence|simpl; lia]).
  replace (Z.to_nat (Z.of_nat (length l) - 1)) with (length l - 1)%nat by lia.
  rewrite <- (firstn_skipn_middle (length l - 1) l
                (x := nth (length l - 1) l origin)) at 1.
  - replace (S (length l - 1)) with (length l) by lia.
    now rewrite skipn_all.
  - apply nth_error_nth'. lia.
Qed.

(** ** Outside the buffer *)

Lemma at_undefined who i s : ~ inb s i -> at_ who i s = Undefined.
Proof.
  unfold inb, at_. intros H.
  destruct ((0 <=? i) && (i <? size s))%bool eqn:E; [|reflexivity].
  apply andb_true_iff in E as [H1 H2].
  apply Z.leb_le in H1. apply Z.ltb_lt in H2. lia.
Qed.

Lemma bind_Undefined {A B} (m : M A) (k : A -> M B) s :
  m s = Undefined -> bind m k s = Undefined.
Proof. intros H. unfold bind. now rewrite H. Qed.

Lemma for_count_app {A} (body : Z -> A -> M A) a : forall b i acc s,
  for_count (a + b) i body acc s =
  bind (for_count a i body acc)
       (fun acc' => for_count b (i + Z.of_nat a) body acc') s.
Proof.
  induction a as [|a IH]; intros b i acc s.
  - simpl. unfold bind, ret. now rewrite Z.add_0_r.
  - change (S a + b)%nat with (S (a + b)). simpl for_count.
    rewrite bind_bind. apply bind_ext. intros acc' t.
    rewrite IH. apply bind_ext. intros acc'' t'.
    f_equal. lia.
Qed.

(** The pivot search of a range that leaves the buffer reads outside it. *)
Lemma find_referential_undefined left right s :
  size s <> 0 -> left <= right -> left < 0 \/ size s <= right ->
  find_referential left right s = Undefined.
Proof.
  intros Hs Hle Hout. unfold find_referential, for_.
  destruct (Z_lt_le_dec left 0) as [Hneg|Hpos];
    [|destruct (Z_lt_le_dec left (size s)) as [Hin|Hbig]].
  - replace (Z.to_nat (right + 1 - left))
      with (S (Z.to_nat (right - left))) by lia.
    simpl. apply bind_Undefined, bind_Undefined, at_undefined.
    unfold inb. lia.
  - replace (Z.to_nat (right + 1 - left))
      with (Z.to_nat (size s - 1 + 1 - left)
            + S (Z.to_nat (right - size s)))%nat by lia.
    rewrite for_count_app.
    destruct (find_referential_ok left (size s - 1) s Hpos ltac:(lia)
                ltac:(lia)) as (r & t & E & Hro & _).
    unfold find_referential, for_ in E. rewrite (bind_Ok _ _ _ _ _ E).
    simpl. apply bind_Undefined, bind_Undefined, at_undefined.
    unfold inb. rewrite (reads_only_size _ _ _ Hro). lia.
  - replace (Z.to_nat (right + 1 - left))
      with (S (Z.to_nat (right - left))) by lia.
    simpl. apply bind_Undefined, bind_Undefined, at_undefined.
    unfold inb. lia.
Qed.

(** ** More on the order of doubles *)

Lemma SFeqb_true a b :
  SFeqb a b = true ->
  a = b \/ exists s s', a = S754_zero s /\ b = S754_zero s'.
Proof.
  unfold SFeqb, SFcompare.
  destruct a as [sa|sa| |sa ma ea], b as [sb|sb| |sb mb eb];
    try discriminate; try (destruct sa; discriminate);
    try (destruct sb; discriminate).
  - intros _. right. eauto.
  - destruct sa, sb; try discriminate; auto.
  - change (Pos.compare_cont Eq ma mb) with (Pos.compare ma mb).
    destruct sa, sb; try discriminate;
      destruct (Z.compare_spec ea eb); try discriminate;
      destruct (Pos.compare_spec ma mb); try discriminate;
      intros _; left; congruence.
Qed.

Lemma SFeqb_refl a : a <> S754_nan -> SFeqb a a = true.
Proof.
  unfold SFeqb, SFcompare.
  destruct a as [s|s| |s m e]; try destruct s; intros H;
    try reflexivity; try congruence;
    rewrite Z.compare_refl, Pos.compare_cont_refl; reflexivity.
Qed.

Lemma SFltb_zero_sign m s s' :
  SFltb m (S754_zero s) = SFltb m (S754_zero s').
Proof. unfold SFltb, SFcompare. destruct m; reflexivity. Qed.

(** Two doubles that compare equal are above the same doubles. *)
Lemma ltb_eqb_r (m a b : float) :
  (a =? b)%float = true -> (m <? a)%float = (m <? b)%float.
Proof.
  rewrite eqb_spec, !ltb_spec. intros H.
  destruct (SFeqb_true _ _ H) as [->|(s & s' & -> & ->)];
    [reflexivity|apply SFltb_zero_sign].
Qed.

Lemma is_nan_iff f : is_nan f = true <-> Prim2SF f = S754_nan.
Proof.
  split; [|apply is_nan_spec].
  unfold is_nan. rewrite eqb_spec. intros H.
  destruct (Prim2SF f) eqn:E; try reflexivity;
    rewrite SFeqb_refl in H by discriminate; discriminate.
Qed.

Lemma ltb_not_nan_r (m d : float) : (m <? d)%float = true -> is_nan d = false.
Proof.
  intros H. destruct (is_nan d) eqn:E; [|reflexivity].
  apply is_nan_iff in E. rewrite (ltb_nan_r m d E) in H. discriminate.
Qed.

(** If nothing seen so far is above [m] and [d] is, nothing seen so far is
    above [d], nor equal to it. *)
Lemma ltb_upper (m d q : float) :
  (m <? q)%float = false -> (m <? d)%float = true ->
  (d <? q)%float = false /\ (q =? d)%float = false.
Proof.
  intros Hq Hd. split.
  - destruct (d <? q)%float eqn:E; [|reflexivity].
    rewrite (ltb_trans _ _ _ Hd E) in Hq. discriminate.
  - destruct (q =? d)%float eqn:E; [|reflexivity].
    rewrite (ltb_eqb_r m q d E), Hd in Hq. discriminate.
Qed.

(** ** The sign of a distance *)

Lemma binary_round_aux_sign p e m ex l :
  sign_clear (binary_round_aux p e false m ex l).
Proof.
  unfold binary_round_aux.
  destruct (shr_fexp p e m ex l) as [mrs' e'].
  destruct (shr_fexp p e _ e' loc_Exact) as [mrs'' e''].
  destruct (shr_m mrs''); simpl; auto.
  destruct (e'' <=? e - p); simpl; auto.
Qed.

Lemma binary_round_sign p e m ex : sign_clear (binary_round p e false m ex).
Proof.
  unfold binary_round. destruct (shl_align _ _ _) as [mz ez].
  apply binary_round_aux_sign.
Qed.

Lemma nonneg_square f : nonneg (f * f).
Proof.
  unfold nonneg. rewrite mul_spec. unfold SF64mul, SFmul.
  destruct (Prim2SF f) as [s|s| |s m e]; simpl; auto using xorb_nilpotent.
  rewrite xorb_nilpotent. apply binary_round_aux_sign.
Qed.

Lemma nonneg_add f g : nonneg f -> nonneg g -> nonneg (f + g).
Proof.
  unfold nonneg. rewrite add_spec. unfold SF64add, SFadd.
  destruct (Prim2SF f) as [s|s| |s m e], (Prim2SF g) as [s'|s'| |s' m' e'];
    simpl; intros Hf Hg; subst; simpl; auto.
  apply binary_round_sign.
Qed.

Lemma nonneg_sqrt f : nonneg f -> nonneg (sqrt f).
Proof.
  unfold nonneg. rewrite sqrt_spec. unfold SF64sqrt, SFsqrt.
  destruct (Prim2SF f) as [s|s| |s m e]; simpl; intros Hf; subst; simpl; auto.
  destruct (SFsqrt_core_binary _ _ _ _) as [[mz ez] lz].
  apply binary_round_aux_sign.
Qed.

Lemma nonneg_abs f : nonneg (abs f).
Proof.
  unfold nonneg. rewrite abs_spec. unfold SFabs.
  destruct (Prim2SF f); simpl; auto.
Qed.

Lemma nonneg_div f g : nonneg f -> nonneg g -> nonneg (f / g).
Proof.
  unfold nonneg. rewrite div_spec. unfold SF64div, SFdiv.
  destruct (Prim2SF f) as [s|s| |s m e], (Prim2SF g) as [s'|s'| |s' m' e'];
    simpl; intros Hf Hg; subst; simpl; auto.
  destruct (SFdiv_core_binary _ _ _ _ _ _) as [[mz ez] lz].
  apply binary_round_aux_sign.
Qed.

Lemma distance_nonneg a b p : nonneg (distance a b p).
Proof.
  unfold distance. apply nonneg_div; [apply nonneg_abs|].
  apply nonneg_sqrt, nonneg_add; apply nonneg_square.
Qed.

(** A value with a clear sign bit is above -1, and never below 0. *)
Lemma nonneg_above_sentinel f :
  nonneg f -> is_nan f = false -> ((-1) <? f)%float = true.
Proof.
  unfold nonneg. intros Hs Hn. rewrite ltb_spec.
  change (Prim2SF (-1)) with (S754_finite true 4503599627370496 (-52)).
  destruct (Prim2SF f) as [s|s| |s m e] eqn:E; simpl in Hs; subst;
    try reflexivity.
  rewrite (proj2 (is_nan_iff f) E) in Hn. discriminate.
Qed.

Lemma nonneg_not_below_zero f : nonneg f -> (f <? 0)%float = false.
Proof.
  unfold nonneg. intros Hs. rewrite ltb_spec.
  change (Prim2SF 0) with (S754_zero false).
  destruct (Prim2SF f) as [s|s| |s m e]; simpl in Hs; subst; reflexivity.
Qed.

Lemma findMaxDistancePoint_argmax a b s :
  inb s a -> inb s b ->
  exists m v s',
    findMaxDistancePoint a b s = Ok v s' /\
    points s' = points s /\ convexHull s' = convexHull s /\
    farthest_below (points s) a b (size s) (m, v).
Proof.
  intros Ha Hb. unfold findMaxDistancePoint.
  set (s1 := log (Search a b) s).
  destruct (for_inv
    (fun i '(maxDist, maxPointIndex) =>
       pa <- at_ InFindMax a ;;
       pb <- at_ InFindMax b ;;
       pi <- at_ InFindMax i ;;
       let dist := distance pa pb pi in
       if (maxDist <? dist)%float then ret (dist, i)
       else ret (maxDist, maxPointIndex))
    (fun (k : Z) acc t =>
       reads_only (sought (size s)) s1 t /\
       farthest_below (points s) a b k acc)
    0 (size s1) ((-1)%float, -1) s1) as ([m v] & s' & Hrun & Hro & Hres).
  - unfold size. lia.
  - intros k [maxDist maxPointIndex] t Hk (Hro & Hacc).
    destruct (at_reads _ InFindMax a s1 t Hro) as (t1 & E1 & Hro1);
      [exact Ha | exact Ha |].
    destruct (at_reads _ InFindMax b s1 t1 Hro1) as (t2 & E2 & Hro2);
      [exact Hb | exact Hb |].
    destruct (at_reads _ InFindMax k s1 t2 Hro2) as (t3 & E3 & Hro3);
      [exact Hk | exact Hk |].
    unfold bind. rewrite E1, E2, E3. cbv zeta.
    change (distance (get (points s1) a) (get (points s1) b)
              (get (points s1) k)) with (dist_at (points s) a b k).
    destruct (maxDist <? dist_at (points s) a b k)%float eqn:Elt.
    + eexists _, t3. split; [reflexivity|]. split; [assumption|].
      right. simpl.
      assert (Hup : forall j, 0 <= j < k ->
                (maxDist <? dist_at (points s) a b j)%float = false).
      { destruct Hacc as [(Eq & Hall)|(_ & _ & _ & Hall & _)]; [|exact Hall].
        injection Eq as -> _. exact Hall. }
      assert (Hs : ((-1) <? dist_at (points s) a b k)%float = true).
      { destruct Hacc as [(Eq & _)|(_ & _ & Hs & _)].
        - injection Eq as -> _. exact Elt.
        - simpl in Hs. exact (ltb_trans _ _ _ Hs Elt). }
      split; [lia|]. split; [reflexivity|]. split; [exact Hs|]. split.
      * intros j Hj. destruct (Z.eq_dec j k) as [->|Hne];
          [apply ltb_irrefl|].
        apply (ltb_upper maxDist); [apply Hup; lia|exact Elt].
      * intros j Hj. apply (ltb_upper maxDist); [apply Hup; lia|exact Elt].
    + eexists _, t3. split; [reflexivity|]. split; [assumption|].
      destruct Hacc as [(Eq & Hall)|(Hv & Hm & Hs & Hall & Hfirst)].
      * left. split; [exact Eq|]. injection Eq as -> _.
        intros j Hj. destruct (Z.eq_dec j k) as [->|Hne];
          [exact Elt|apply Hall; lia].
      * right. simpl in *. split; [lia|]. split; [exact Hm|].
        split; [exact Hs|]. split; [|exact Hfirst].
        intros j Hj. destruct (Z.eq_dec j k) as [->|Hne];
          [exact Elt|apply Hall; lia].
  - split; [apply reads_only_refl|]. left. split; [reflexivity|].
    intros j Hj. lia.
  - exists m, v, s'. split.
    + rewrite (bind_Ok get_size _ s1 (size s1) s1 eq_refl).
      rewrite (bind_Ok _ _ _ _ _ Hrun). reflexivity.
    + destruct Hro as (Hp & Hh & _). auto.
Qed.

Lemma full_run_sorts fuel pts :
  pts <> [] -> (length pts - 1 <= fuel)%nat ->
  exists s' q,
    quickHull fuel 0 (Z.of_nat (length pts) - 1) (mkState pts [] [])
    = Ok tt s' /\
    Permutation pts (convexHull s' ++ [q]) /\
    ascending_x 0 (Z.of_nat (length pts) - 1) (convexHull s' ++ [q]).
Proof.
  intros Hne Hf.
  assert (Hlen : (0 < length pts)%nat)
    by (destruct pts; [congruence|simpl; lia]).
  destruct (quickHull_sorts fuel 0 (Z.of_nat (length pts) - 1)
              (mkState pts [] []))
    as (s' & E & [P _ _ A H]); [lia | unfold size; simpl; lia | lia |].
  simpl in P, H.
  assert (Hne' : points s' <> []).
  { intros E0. rewrite E0 in P. apply Permutation_sym, Permutation_nil in P.
    contradiction. }
  pose proof (split_last (points s') Hne') as Hsplit.
  rewrite <- (Permutation_length P) in Hsplit.
  replace (Z.to_nat (Z.of_nat (length pts) - 1 - 0))
    with (length pts - 1)%nat in H by lia.
  rewrite <- H in Hsplit.
  exists s', (get (points s') (Z.of_nat (length pts) - 1)).
  split; [exact E|]. rewrite <- Hsplit. split; assumption.
Qed.

Lemma zrange_length n : forall lo, length (zrange lo n) = n.
Proof. induction n; intros lo; simpl; auto. Qed.

Lemma zn_div_l f g : zero_or_nan f -> zero_or_nan (f / g).
Proof.
  intros H. apply (zn_intro _ _ (div_spec f g)). unfold SF64div, SFdiv.
  destruct H as [H | [s H]]; rewrite H; destruct (Prim2SF g); eauto.
Qed.

Lemma zero_or_nan_cases f :
  zero_or_nan f -> is_nan f = true \/ (f =? 0)%float = true.
Proof.
  intros [H | [s H]].
  - left. now apply is_nan_spec.
  - right. rewrite eqb_spec, H. reflexivity.
Qed.

(** ** The controller *)

Lemma limit_bounds v :
  (5 <? PID.limit v)%float = false /\ (PID.limit v <? -5)%float = false.
Proof.
  unfold PID.limit.
  destruct (5 <? v)%float eqn:E1; [split; reflexivity|].
  destruct (v <? -5)%float eqn:E2; [split; reflexivity|].
  split; assumption.
Qed.

Lemma limit_nan v : is_nan v = true -> is_nan (PID.limit v) = true.
Proof.
  intros H. unfold PID.limit. apply is_nan_iff in H as Hv.
  rewrite (ltb_nan_r 5 v Hv).
  replace (v <? -5)%float with false; [exact H|].
  rewrite ltb_spec, Hv. reflexivity.
Qed.

Lemma nan_add_l a b : is_nan a = true -> is_nan (a + b) = true.
Proof.
  intros H. apply is_nan_iff in H. apply is_nan_iff.
  rewrite add_spec, H. reflexivity.
Qed.

Lemma nan_add_r a b : is_nan b = true -> is_nan (a + b) = true.
Proof.
  intros H. apply is_nan_iff in H. apply is_nan_iff.
  rewrite add_spec, H. unfold SF64add, SFadd. destruct (Prim2SF a); reflexivity.
Qed.

Lemma nan_mul_l a b : is_nan a = true -> is_nan (a * b) = true.
Proof.
  intros H. apply is_nan_iff in H. apply is_nan_iff.
  rewrite mul_spec, H. reflexivity.
Qed.

Lemma nan_mul_r a b : is_nan b = true -> is_nan (a * b) = true.
Proof.
  intros H. apply is_nan_iff in H. apply is_nan_iff.
  rewrite mul_spec, H. unfold SF64mul, SFmul. destruct (Prim2SF a); reflexivity.
Qed.

Lemma nan_div_l a b : is_nan a = true -> is_nan (a / b) = true.
Proof.
  intros H. apply is_nan_iff in H. apply is_nan_iff.
  rewrite div_spec, H. reflexivity.
Qed.

(** The loop and its clock end together, with the same count, and one
    line is printed per iteration. *)
Lemma simulate_ticks exp fuel : forall controller time iterations,
  PID.simulate exp fuel controller time iterations = None /\
  PID.ticks fuel (PID.deltaT controller) time iterations = None \/
  exists out n,
    PID.simulate exp fuel controller time iterations = Some (out, n) /\
    PID.ticks fuel (PID.deltaT controller) time iterations = Some n /\
    Z.of_nat (length out) = n - iterations.
Proof.
  induction fuel as [|fuel IH]; intros controller time iterations; simpl.
  - destruct (time <=? 100)%float; [left; auto|right].
    exists [], iterations. simpl. repeat split. lia.
  - destruct (time <=? 100)%float.
    + destruct (IH (fst (PID.updatePIDController exp controller
                          (PID.calculateProcessVariable exp time) time))
                  (time + PID.deltaT controller)%float (iterations + 1))
        as [[E1 E2]|(out & n & E1 & E2 & Hlen)].
      * left. simpl in *. rewrite E1. auto.
      * right. simpl in *. rewrite E1.
        eexists _, n. split; [reflexivity|]. split; [exact E2|].
        simpl. lia.
    + right. exists [], iterations. simpl. repeat split. lia.
Qed.

Lemma ticks_more fuel : forall k dt time iterations n,
  PID.ticks fuel dt time iterations = Some n ->
  PID.ticks (fuel + k) dt time iterations = Some n.
Proof.
  induction fuel as [|fuel IH]; intros k dt time iterations n; simpl.
  - destruct (time <=? 100)%float eqn:E; [discriminate|].
    intros H. destruct k; simpl; rewrite E; exact H.
  - destruct (time <=? 100)%float; [apply IH|auto].
Qed.

(** * Further properties of the two programs *)

(** X1: a call of [quickHull] on [left .. right] inside the buffer
    returns with the buffer a permutation of what it was, and with every
    point outside the range where it was. *)
Theorem quickHull_permutes_range (fuel : nat) (left right : Z) (s : state) :
  0 <= left -> right < size s -> (Z.to_nat (right - left) <= fuel)%nat ->
  exists s',
    quickHull fuel left right s = Ok tt s' /\
    Permutation (points s) (points s') /\
    forall k, 0 <= k -> k < left \/ right < k ->
      get (points s') k = get (points s) k.
Proof.
  intros Hl Hr Hf.
  destruct (quickHull_sorts fuel left right s Hl Hr Hf)
    as (s' & E & [P F _ _ _]).
  exists s'. auto.
Qed.

Lemma quickHull_permutes_range_witness :
  0 <= 0 /\ 2 < size (mkState triangle [] []) /\
  (Z.to_nat (2 - 0) <= 2)%nat /\
  exists s',
    quickHull 2 0 2 (mkState triangle [] []) = Ok tt s' /\
    Permutation triangle (points s') /\
    forall k, 0 <= k -> k < 0 \/ 2 < k -> get (points s') k = get triangle k.
Proof.
  split; [lia|]. split; [vm_compute; reflexivity|]. split; [simpl; lia|].
  apply (quickHull_permutes_range 2 0 2 (mkState triangle [] []));
    [lia | vm_compute; reflexivity | simpl; lia].
Defined.

(** X2: a call of [quickHull] on [left .. right] inside the buffer
    leaves the range in ascending x (no point has an x below that of a
    point before it), and what it appends to the hull is the range as it
    then stands, in order, without its last point. *)
Theorem quickHull_orders_range (fuel : nat) (left right : Z) (s : state) :
  0 <= left -> right < size s -> (Z.to_nat (right - left) <= fuel)%nat ->
  exists s',
    quickHull fuel left right s = Ok tt s' /\
    ascending_x left right (points s') /\
    convexHull s' =
    convexHull s ++ slice (points s') left (Z.to_nat (right - left)).
Proof.
  intros Hl Hr Hf.
  destruct (quickHull_sorts fuel left right s Hl Hr Hf)
    as (s' & E & [_ _ _ A H]).
  exists s'. auto.
Qed.

Lemma quickHull_orders_range_witness :
  0 <= 0 /\ 2 < size (mkState triangle [] []) /\
  (Z.to_nat (2 - 0) <= 2)%nat /\
  exists s',
    quickHull 2 0 2 (mkState triangle [] []) = Ok tt s' /\
    ascending_x 0 2 (points s') /\
    convexHull s' = [] ++ slice (points s') 0 (Z.to_nat (2 - 0)).
Proof.
  split; [lia|]. split; [vm_compute; reflexivity|]. split; [simpl; lia|].
  apply (quickHull_orders_range 2 0 2 (mkState triangle [] []));
    [lia | vm_compute; reflexivity | simpl; lia].
Defined.

(** X3: on a non-empty input the hull returned, followed by one more
    point of the input, is the input rearranged in ascending x: the hull
    is the sorted input without its last point, whatever the shape of
    the point set. *)
Theorem hull_is_sorted_input_without_last (fuel : nat) (pts : list Point) :
  pts <> [] -> (length pts - 1 <= fuel)%nat ->
  exists h q,
    hull_of fuel pts = Some h /\
    Permutation pts (h ++ [q]) /\
    ascending_x 0 (Z.of_nat (length pts) - 1) (h ++ [q]).
Proof.
  intros Hne Hf. unfold hull_of.
  destruct (full_run_sorts fuel pts Hne Hf) as (s' & q & E & P & A).
  rewrite E. exists (convexHull s'), q. auto.
Qed.

Lemma hull_is_sorted_input_without_last_witness :
  square_with_centre <> [] /\ (length square_with_centre - 1 <= 4)%nat /\
  exists h q,
    hull_of 4 square_with_centre = Some h /\
    Permutation square_with_centre (h ++ [q]) /\
    ascending_x 0 (Z.of_nat (length square_with_centre) - 1) (h ++ [q]).
Proof.
  split; [discriminate|]. split; [simpl; lia|].
  apply (hull_is_sorted_input_without_last 4 square_with_centre);
    [discriminate | simpl; lia].
Defined.

(** X4: for a count [1 <= n < 2^31] the program prints the first prompt,
    the prompts for points 1 to n, the header and then n-1 vertices:
    the points read, in ascending x, without the last of them. *)
Theorem main_prints_sorted_input_without_last
  (fuel : nat) (n : Z) (cin : Z -> Point) :
  1 <= n < 2 ^ 31 -> (Z.to_nat n <= fuel)%nat ->
  exists h q,
    main fuel n cin =
    Returns (PromptCount :: map PromptPoint (zrange 1 (Z.to_nat n))
               ++ Header :: map Vertex h) 0 /\
    Permutation (map cin (zrange 0 (Z.to_nat n))) (h ++ [q]) /\
    ascending_x 0 (n - 1) (h ++ [q]).
Proof.
  intros Hn Hf. rewrite main_run, read_points_spec. simpl fst. simpl snd.
  rewrite int_wrap_small by lia.
  set (pts := map cin (zrange 0 (Z.to_nat n))).
  assert (Hlen : length pts = Z.to_nat n)
    by (unfold pts; rewrite length_map; apply zrange_length).
  destruct (full_run_sorts fuel pts) as (s' & q & E & P & A).
  - intros E0. rewrite E0 in Hlen. simpl in Hlen. lia.
  - lia.
  - replace (Z.of_nat (length pts) - 1) with (n - 1) in E, A by lia.
    rewrite E. exists (convexHull s'), q. auto.
Qed.

Lemma main_prints_sorted_input_without_last_witness :
  1 <= 3 < 2 ^ 31 /\ (Z.to_nat 3 <= 3)%nat /\
  exists h q,
    main 3 3 (fun k => get triangle k) =
    Returns (PromptCount :: map PromptPoint (zrange 1 (Z.to_nat 3))
               ++ Header :: map Vertex h) 0 /\
    Permutation (map (fun k => get triangle k) (zrange 0 (Z.to_nat 3)))
                (h ++ [q]) /\
    ascending_x 0 (3 - 1) (h ++ [q]).
Proof.
  split; [lia|]. split; [simpl; lia|].
  apply (main_prints_sorted_input_without_last 3 3 (fun k => get triangle k));
    [lia | simpl; lia].
Defined.

(** X5: [quickHull] has no bounds check: a call on two or more indices
    of a non-empty buffer with [left < 0] or [right >= size] reads
    [points] outside the vector in its first loop, which is undefined
    behaviour. *)
Theorem quickHull_outside_buffer (fuel : nat) (left right : Z) (s : state) :
  size s <> 0 -> left < right -> left < 0 \/ size s <= right ->
  quickHull (S fuel) left right s = Undefined.
Proof.
  intros Hs Hlt Hout. unfold quickHull. rewrite quickHull_with_S.
  rewrite (bind_Ok empty _ s (size s =? 0) s eq_refl).
  replace (size s =? 0) with false by (symmetry; apply Z.eqb_neq; lia).
  replace (right <=? left) with false by (symmetry; apply Z.leb_gt; lia).
  cbv [orb]. apply bind_Undefined, find_referential_undefined; auto. lia.
Qed.

Lemma quickHull_outside_buffer_witness :
  size (mkState triangle [] []) <> 0 /\ 0 < 3 /\
  (0 < 0 \/ size (mkState triangle [] []) <= 3) /\
  quickHull 1 0 3 (mkState triangle [] []) = Undefined.
Proof.
  split; [vm_compute; discriminate|]. split; [lia|].
  split; [right; vm_compute; discriminate|].
  apply (quickHull_outside_buffer 0 0 3 (mkState triangle [] []));
    [vm_compute; discriminate | lia | right; vm_compute; discriminate].
Defined.

(** X6: with [a] and [b] inside the buffer, [findMaxDistancePoint]
    returns, leaves both vectors as they were, and its result is -1 or
    an index of the buffer. *)
Theorem findMaxDistancePoint_reads_only (a b : Z) (s : state) :
  inb s a -> inb s b ->
  exists v s',
    findMaxDistancePoint a b s = Ok v s' /\
    points s' = points s /\ convexHull s' = convexHull s /\
    -1 <= v < size s.
Proof.
  intros Ha Hb.
  destruct (findMaxDistancePoint_argmax a b s Ha Hb)
    as (m & v & s' & E & Hp & Hh & Hres).
  exists v, s'. repeat (split; [assumption|]).
  destruct Hres as [(Eq & _)|(Hv & _)].
  - injection Eq as _ ->. unfold inb in Ha. lia.
  - simpl in Hv. lia.
Qed.

Lemma findMaxDistancePoint_reads_only_witness :
  inb (mkState triangle [] []) 0 /\ inb (mkState triangle [] []) 1 /\
  exists v s',
    findMaxDistancePoint 0 1 (mkState triangle [] []) = Ok v s' /\
    points s' = triangle /\ convexHull s' = [] /\
    -1 <= v < size (mkState triangle [] []).
Proof.
  assert (H0 : inb (mkState triangle [] []) 0)
    by (unfold inb, size; simpl; lia).
  assert (H1 : inb (mkState triangle [] []) 1)
    by (unfold inb, size; simpl; lia).
  split; [exact H0|]. split; [exact H1|].
  exact (findMaxDistancePoint_reads_only 0 1 (mkState triangle [] []) H0 H1).
Defined.

(** X7: when [findMaxDistancePoint] returns an index [v >= 0], the
    distance of point [v] is a number (not NaN), no point of the buffer
    is farther from the line, and no point before [v] is at an equal
    distance: it is the first index of the largest distance. *)
Theorem findMaxDistancePoint_first_farthest (a b : Z) (s : state) :
  inb s a -> inb s b ->
  exists v s',
    findMaxDistancePoint a b s = Ok v s' /\
    (0 <= v ->
     is_nan (dist_at (points s) a b v) = false /\
     (forall i, 0 <= i < size s ->
        (dist_at (points s) a b v <? dist_at (points s) a b i)%float
        = false) /\
     (forall j, 0 <= j < v ->
        (dist_at (points s) a b j =? dist_at (points s) a b v)%float
        = false)).
Proof.
  intros Ha Hb.
  destruct (findMaxDistancePoint_argmax a b s Ha Hb)
    as (m & v & s' & E & _ & _ & Hres).
  exists v, s'. split; [exact E|]. intros Hv.
  destruct Hres as [(Eq & _)|(_ & Hm & Hs & Hall & Hfirst)].
  - injection Eq as _ ->. lia.
  - simpl in *. subst m. split; [|split; assumption].
    exact (ltb_not_nan_r _ _ Hs).
Qed.

Lemma findMaxDistancePoint_first_farthest_witness :
  inb (mkState triangle [] []) 0 /\ inb (mkState triangle [] []) 1 /\
  exists v s',
    findMaxDistancePoint 0 1 (mkState triangle [] []) = Ok v s' /\
    (0 <= v ->
     is_nan (dist_at triangle 0 1 v) = false /\
     (forall i, 0 <= i < size (mkState triangle [] []) ->
        (dist_at triangle 0 1 v <? dist_at triangle 0 1 i)%float = false) /\
     (forall j, 0 <= j < v ->
        (dist_at triangle 0 1 j =? dist_at triangle 0 1 v)%float = false)).
Proof.
  assert (H0 : inb (mkState triangle [] []) 0)
    by (unfold inb, size; simpl; lia).
  assert (H1 : inb (mkState triangle [] []) 1)
    by (unfold inb, size; simpl; lia).
  split; [exact H0|]. split; [exact H1|].
  exact (findMaxDistancePoint_first_farthest 0 1 (mkState triangle [] [])
           H0 H1).
Defined.

(** X8: with [a] and [b] inside the buffer, [findMaxDistancePoint]
    returns -1 exactly when the distance of every point of the buffer is
    NaN. *)
Theorem findMaxDistancePoint_none_iff_all_nan (a b : Z) (s : state) :
  inb s a -> inb s b ->
  exists v s',
    findMaxDistancePoint a b s = Ok v s' /\
    (v = -1 <->
     forall i, 0 <= i < size s -> is_nan (dist_at (points s) a b i) = true).
Proof.
  intros Ha Hb.
  destruct (findMaxDistancePoint_argmax a b s Ha Hb)
    as (m & v & s' & E & _ & _ & Hres).
  exists v, s'. split; [exact E|].
  destruct Hres as [(Eq & Hall)|(Hv & Hm & Hs & _)].
  - injection Eq as _ ->. split; [|reflexivity]. intros _ i Hi.
    destruct (is_nan (dist_at (points s) a b i)) eqn:En; [reflexivity|].
    pose proof (Hall i Hi) as Hi'. unfold dist_at in Hi', En.
    rewrite (nonneg_above_sentinel _ (distance_nonneg _ _ _) En) in Hi'.
    discriminate.
  - simpl in *. subst m. split; [lia|]. intros Hall.
    specialize (Hall v Hv). rewrite (ltb_not_nan_r _ _ Hs) in Hall.
    discriminate.
Qed.

Lemma findMaxDistancePoint_none_iff_all_nan_witness :
  inb (mkState triangle [] []) 1 /\
  exists v s',
    findMaxDistancePoint 1 1 (mkState triangle [] []) = Ok v s' /\
    (v = -1 <->
     forall i, 0 <= i < size (mkState triangle [] []) ->
       is_nan (dist_at triangle 1 1 i) = true).
Proof.
  assert (H1 : inb (mkState triangle [] []) 1)
    by (unfold inb, size; simpl; lia).
  split; [exact H1|].
  exact (findMaxDistancePoint_none_iff_all_nan 1 1 (mkState triangle [] [])
           H1 H1).
Defined.

(** X9: on an empty buffer [findMaxDistancePoint] returns -1 without
    reading a point, whatever [a] and [b] are. *)
Theorem findMaxDistancePoint_empty (a b : Z) (s : state) :
  size s = 0 -> findMaxDistancePoint a b s = Ok (-1) (log (Search a b) s).
Proof.
  intros Hs. unfold findMaxDistancePoint.
  rewrite (bind_Ok get_size _ (log (Search a b) s) (size s)
             (log (Search a b) s) eq_refl).
  rewrite Hs. reflexivity.
Qed.

Lemma findMaxDistancePoint_empty_witness :
  size (mkState [] [] []) = 0 /\
  findMaxDistancePoint 7 (-3) (mkState [] [] [])
  = Ok (-1) (log (Search 7 (-3)) (mkState [] [] [])).
Proof.
  split; [reflexivity|].
  apply (findMaxDistancePoint_empty 7 (-3) (mkState [] [] [])). reflexivity.
Defined.

(** X10: on a non-empty buffer [findMaxDistancePoint] has no bounds
    check on [a] and [b]: with either outside the buffer it reads
    [points] outside the vector, which is undefined behaviour. *)
Theorem findMaxDistancePoint_outside_buffer (a b : Z) (s : state) :
  size s <> 0 -> ~ inb s a \/ ~ inb s b ->
  findMaxDistancePoint a b s = Undefined.
Proof.
  intros Hs Hout. unfold findMaxDistancePoint.
  rewrite (bind_Ok get_size _ (log (Search a b) s) (size s)
             (log (Search a b) s) eq_refl).
  apply bind_Undefined. unfold for_.
  replace (Z.to_nat (size s - 0)) with (S (Z.to_nat (size s - 1)))
    by (unfold size in *; lia).
  simpl for_count. apply bind_Undefined.
  destruct (Z_le_dec 0 a) as [Ha0|Ha0];
    [destruct (Z_lt_dec a (size s)) as [Ha1|Ha1]|].
  - assert (Ha : inb (log (Search a b) s) a)
      by (unfold inb; simpl; exact (conj Ha0 Ha1)).
    rewrite (bind_Ok _ _ _ _ _ (at_ok InFindMax a _ Ha)).
    apply bind_Undefined, at_undefined.
    destruct Hout as [H|H]; [exfalso; apply H; exact (conj Ha0 Ha1)|exact H].
  - apply bind_Undefined, at_undefined. unfold inb. simpl.
    change (size (log (Search a b) s)) with (size s). lia.
  - apply bind_Undefined, at_undefined. unfold inb. lia.
Qed.

Lemma findMaxDistancePoint_outside_buffer_witness :
  size (mkState triangle [] []) <> 0 /\
  (~ inb (mkState triangle [] []) 0 \/ ~ inb (mkState triangle [] []) 3) /\
  findMaxDistancePoint 0 3 (mkState triangle [] []) = Undefined.
Proof.
  assert (Hs : size (mkState triangle [] []) <> 0)
    by (vm_compute; discriminate).
  assert (Hout : ~ inb (mkState triangle [] []) 0 \/
                 ~ inb (mkState triangle [] []) 3)
    by (right; unfold inb, size; simpl; lia).
  split; [exact Hs|]. split; [exact Hout|].
  exact (findMaxDistancePoint_outside_buffer 0 3 (mkState triangle [] [])
           Hs Hout).
Defined.

(** X11: [distance] never returns a negative number: its result is not
    below 0, and when it is not NaN it is above the sentinel -1 with
    which [findMaxDistancePoint] starts. *)
Theorem distance_never_negative (a b p : Point) :
  (distance a b p <? 0)%float = false /\
  (is_nan (distance a b p) = false -> ((-1) <? distance a b p)%float = true).
Proof.
  split.
  - apply nonneg_not_below_zero, distance_nonneg.
  - apply nonneg_above_sentinel, distance_nonneg.
Qed.

(** X12: the distance of the endpoint [a] from the line through [a] and
    [b] is zero, or NaN, for every [a] and [b]. *)
Theorem distance_of_first_endpoint (a b : Point) :
  is_nan (distance a b a) = true \/ (distance a b a =? 0)%float = true.
Proof.
  apply zero_or_nan_cases. unfold distance.
  apply zn_div_l, zn_abs, zn_sub;
    [apply zn_mul_r | apply zn_mul_l]; apply zn_sub_diag.
Qed.

(** X13: [updatePIDController] never returns a value above 5 or below
    -5, and never leaves the integral above 5 or below -5, whatever the
    controller, the time and the value of [exp]. *)
Theorem updatePIDController_saturates
  (exp : float -> float) (controller : PID.PIDController)
  (processVariable time : float) :
  let (controller', controlOutput) :=
    PID.updatePIDController exp controller processVariable time in
  ((5 <? controlOutput)%float = false /\
   (controlOutput <? -5)%float = false) /\
  ((5 <? PID.integral controller')%float = false /\
   (PID.integral controller' <? -5)%float = false).
Proof.
  unfold PID.updatePIDController. cbv zeta. simpl PID.integral.
  split; apply limit_bounds.
Qed.

(** X14: the limiters do not stop NaN: once the integral or the previous
    error of the controller is NaN, [updatePIDController] returns NaN and
    leaves the integral NaN, so every later update returns NaN too. *)
Theorem updatePIDController_keeps_nan
  (exp : float -> float) (controller : PID.PIDController)
  (processVariable time : float) :
  is_nan (PID.integral controller) = true \/
  is_nan (PID.prevError controller) = true ->
  let (controller', controlOutput) :=
    PID.updatePIDController exp controller processVariable time in
  is_nan controlOutput = true /\ is_nan (PID.integral controller') = true.
Proof.
  intros H. unfold PID.updatePIDController. cbv zeta. simpl PID.integral.
  match goal with
  | |- context [PID.limit (PID.integral controller + ?inc)] =>
      assert (Hint : is_nan (PID.limit (PID.integral controller + inc))
                     = true)
  end.
  { apply limit_nan. destruct H as [H|H]; [now apply nan_add_l|].
    apply nan_add_r, nan_mul_r, nan_div_l, nan_mul_l, nan_add_r. exact H. }
  split; [|exact Hint].
  apply limit_nan, nan_add_l, nan_add_r. exact Hint.
Qed.

Lemma updatePIDController_keeps_nan_witness :
  (is_nan (PID.integral (PID.mkPID 1 0 0 1 1 nan 0)) = true \/
   is_nan (PID.prevError (PID.mkPID 1 0 0 1 1 nan 0)) = true) /\
  let (controller', controlOutput) :=
    PID.updatePIDController (fun v => v) (PID.mkPID 1 0 0 1 1 nan 0) 0 0 in
  is_nan controlOutput = true /\ is_nan (PID.integral controller') = true.
Proof.
  split; [left; reflexivity|].
  apply (updatePIDController_keeps_nan (fun v => v)
           (PID.mkPID 1 0 0 1 1 nan 0) 0 0).
  left. reflexivity.
Defined.

(** X15: the simulation loop of [main] ends after exactly 1001
    iterations, not 1000: the sum of a thousand steps of 0.1 is still
    below 100 in binary64.  The program prints 1001 result lines and
    the closing line and returns 0, whatever [exp] computes. *)
Theorem main_runs_1001_iterations (exp : float -> float) (fuel : nat) :
  (1001 <= fuel)%nat ->
  exists out,
    PID.main exp fuel = Some (out ++ [PID.Completed 1001], 0) /\
    length out = 1001%nat.
Proof.
  intros Hf. unfold PID.main.
  set (c := PID.initPIDController _ _ _ _ _).
  assert (Ht : PID.ticks fuel (PID.deltaT c) 0 0 = Some 1001).
  { replace fuel with (1001 + (fuel - 1001))%nat by lia.
    apply ticks_more. vm_compute. reflexivity. }
  destruct (simulate_ticks exp fuel c 0%float 0)
    as [[_ E]|(out & n & E1 & E2 & Hlen)]; [congruence|].
  rewrite Ht in E2. injection E2 as <-. rewrite E1.
  exists out. split; [reflexivity|lia].
Qed.

Lemma main_runs_1001_iterations_witness :
  (1001 <= 1001)%nat /\
  exists out,
    PID.main (fun v => v) 1001 = Some (out ++ [PID.Completed 1001], 0) /\
    length out = 1001%nat.
Proof.
  split; [lia|].
  apply (main_runs_1001_iterations (fun v => v) 1001). lia.
Defined.
